(** * The parser queue of Telescope: discovery, reconciliation, enqueueing

    Shallow embedding of [src/api/parser/src/parser-queue.js].

    The async functions of the file are written in a small resumption monad
    [Prog]: every call that leaves the file ([fetch], the [Feed] store,
    [feedQueue.addFeed], the logger) is one node [Eff op k] whose
    continuation [k] receives the settled outcome of the call.  A program
    runs either alone, call after call ([run]), or as one of several
    callbacks whose calls interleave ([step], driven by a schedule).

    A call of [processAllFeeds] is a [Pass]: its body up to the call of
    [processFeeds], then the callbacks that [processFeeds] hands to
    [Promise.all].  The module is a [System]: the passes started by
    [startParserQueue] and by the listener of 'drained', and the handlers
    started by the listener of 'failed', over one store. *)

From Stdlib Require Import String.
From stdpp Require Import base list.
From Stdlib Require Import Lia.

(** ** Data *)

Definition Id := nat.

(** A persisted feed, as the store returns it. *)
Record Feed := mkFeed {
  feed_id : Id;
  feed_url : string;
  feed_author : string;
  feed_etag : option string;
  feed_isValid : bool;
  feed_reason : option string
}.

(** Feed data as discovered: an entry of [user.feeds]. *)
Record FeedData := mkFeedData {
  url : string;
  author : string
}.

(** A user record of the directory response. *)
Record User := mkUser {
  isFlagged : bool;
  feeds : list FeedData
}.

Record Response := mkResponse {
  status : nat;
  body : list User
}.

Inductive Err := TypeError | DuplicateUrl | FeedNotFound | FetchError.

(** How a promise settles. *)
Inductive Outcome (B : Type) :=
| Fulfilled (b : B)
| Rejected (e : Err).
Arguments Fulfilled {B} b.
Arguments Rejected {B} e.

Inductive Level := Info | Error.

(** ** Calls that leave the file *)

Inductive Op : Type -> Type :=
| Fetch : Op Response                       (* fetch(`${USERS_URL}/`, ...) *)
| FeedAll : Op (list Feed)                  (* Feed.all() *)
| FeedByUrl : string -> Op (option Feed)    (* Feed.byUrl(url) *)
| FeedById : Id -> Op (option Feed)         (* Feed.byId(id) *)
| FeedCreate : FeedData -> Op Id            (* Feed.create(feedData) *)
| SetInvalid : Feed -> string -> Op unit    (* feed.setInvalid(reason) *)
| AddFeed : Id -> Op unit                   (* feedQueue.addFeed({ id }) *)
| Log : Level -> option Err -> string -> Op unit.

(** A call together with the way it settled, as recorded in a trace. *)
Inductive Call :=
| CFetch (r : Outcome Response)
| CAll (r : Outcome (list Feed))
| CByUrl (u : string) (r : Outcome (option Feed))
| CById (i : Id) (r : Outcome (option Feed))
| CCreate (d : FeedData) (r : Outcome Id)
| CSetInvalid (f : Feed) (reason : string) (r : Outcome unit)
| CAddFeed (i : Id) (r : Outcome unit)
| CLog (l : Level) (e : option Err) (msg : string) (r : Outcome unit).

Definition call_of {B} (op : Op B) : Outcome B -> Call :=
  match op with
  | Fetch => CFetch
  | FeedAll => CAll
  | FeedByUrl u => CByUrl u
  | FeedById i => CById i
  | FeedCreate d => CCreate d
  | SetInvalid f reason => CSetInvalid f reason
  | AddFeed i => CAddFeed i
  | Log l e msg => CLog l e msg
  end.

(** ** The resumption monad *)

Inductive Prog (A : Type) : Type :=
| Ret (a : A)
| Throw (e : Err)
| Eff {B : Type} (op : Op B) (k : Outcome B -> Prog A).
Arguments Ret {A} a.
Arguments Throw {A} e.
Arguments Eff {A B} op k.

Fixpoint bind {A B} (p : Prog A) (f : A -> Prog B) : Prog B :=
  match p with
  | Ret a => f a
  | Throw e => Throw e
  | Eff op k => Eff op (fun r => bind (k r) f)
  end.

(** [await op]: the call is made, the function is suspended, and it resumes
    with the value, or throws what the promise was rejected with. *)
Definition await {B} (op : Op B) : Prog B :=
  Eff op (fun r => match r with
                   | Fulfilled b => Ret b
                   | Rejected e => Throw e
                   end).

(** [promise.catch(handler)] *)
Fixpoint catch {A} (p : Prog A) (handler : Err -> Prog A) : Prog A :=
  match p with
  | Ret a => Ret a
  | Throw e => handler e
  | Eff op k => Eff op (fun r => catch (k r) handler)
  end.

Notation "'let*' x ':=' p 'in' q" := (bind p (fun x => q))
  (at level 10, x binder, p at level 100, q at level 200).

(** ** The world outside the file *)

(** What the calls act on: the records of the Feed store, in the order
    [Feed.all()] lists them, and what the directory service currently
    answers to the request of [processAllFeeds].  The store and the queue
    are taken to be reachable: a call is rejected only for a reason the
    store itself has ([DuplicateUrl], [FeedNotFound]). *)
Record World := mkWorld {
  store : list Feed;
  directory : Outcome Response
}.

(** Modelled from the spec: the Feed store ([./data/feed]) is not among the
    sources.  [byUrl] is an exact match on the URL and answers not-found
    with [None]. *)
Definition byUrl (fs : list Feed) (u : string) : option Feed :=
  find (fun f => String.eqb (feed_url f) u) fs.

(** Modelled from the spec: [byId] of the Feed store ([./data/feed]) is a
    lookup by id and answers not-found with [None]. *)
Definition byId (fs : list Feed) (i : Id) : option Feed :=
  find (fun f => Nat.eqb (feed_id f) i) fs.

(** Modelled from the spec: the id the Feed store ([./data/feed]) assigns
    on creation is one not in use. *)
Definition fresh_id (fs : list Feed) : Id :=
  S (max_list (map feed_id fs)).

(** Modelled from the spec: the record that [create] of the Feed store
    ([./data/feed]) builds from the feed data, under the assigned id, valid
    and without caching metadata. *)
Definition new_record (fs : list Feed) (d : FeedData) : Feed :=
  mkFeed (fresh_id fs) (url d) (author d) None true None.

(** Modelled from the spec: [create] of the Feed store ([./data/feed])
    stores the new record and answers its id; it is rejected with
    [DuplicateUrl], and stores nothing, when a record with that URL
    exists. *)
Definition create (fs : list Feed) (d : FeedData) : Outcome Id * list Feed :=
  match byUrl fs (url d) with
  | Some _ => (Rejected DuplicateUrl, fs)
  | None => (Fulfilled (fresh_id fs), fs ++ [new_record fs d])
  end.

(** Modelled from the spec: a record of the Feed store ([./data/feed]) once
    marked invalid, the reason recorded, everything else as it was. *)
Definition invalidated (reason : string) (f : Feed) : Feed :=
  mkFeed (feed_id f) (feed_url f) (feed_author f) (feed_etag f)
         false (Some reason).

(** Modelled from the spec: [setInvalid] of the Feed store ([./data/feed])
    flips the validity flag of the record with the feed's id and records
    the reason; invalidating an invalid feed updates the reason. *)
Definition setInvalid (fs : list Feed) (f : Feed) (reason : string)
  : Outcome unit * list Feed :=
  match byId fs (feed_id f) with
  | Some _ =>
      (Fulfilled tt,
       map (fun g => if Nat.eqb (feed_id g) (feed_id f)
                     then invalidated reason g else g) fs)
  | None => (Rejected FeedNotFound, fs)
  end.


(** Modelled from the spec: one call, performed atomically on the world,
    by the contracts of the Feed store, of the job queue ([./feed/queue],
    not among the sources either) and of the directory service.  The queue
    and the logger are written to only: what they received is read off the
    trace. *)
Definition perform {B} (op : Op B) (w : World) : Outcome B * World :=
  match op in Op B return Outcome B * World with
  | Fetch => (directory w, w)
  | FeedAll => (Fulfilled (store w), w)
  | FeedByUrl u => (Fulfilled (byUrl (store w) u), w)
  | FeedById i => (Fulfilled (byId (store w) i), w)
  | FeedCreate d =>
      let '(r, fs) := create (store w) d in (r, mkWorld fs (directory w))
  | SetInvalid f reason =>
      let '(r, fs) := setInvalid (store w) f reason in
      (r, mkWorld fs (directory w))
  | AddFeed _ => (Fulfilled tt, w)
  | Log _ _ _ => (Fulfilled tt, w)
  end.

(** Calls made by other code between two moments, whatever they are. *)
Inductive SomeOp :=
| some_op {B : Type} (op : Op B).

Definition disturb (ops : list SomeOp) (w : World) : World :=
  foldl (fun w o => match o with some_op op => (perform op w).2 end) w ops.

(** A program run alone from start to end: the outcome of its promise, the
    world it leaves, the calls it made. *)
Fixpoint run {A} (p : Prog A) (w : World) : Outcome A * World * list Call :=
  match p with
  | Ret a => (Fulfilled a, w, [])
  | Throw e => (Rejected e, w, [])
  | Eff op k =>
      let '(r, w1) := perform op w in
      let '(o, w2, cs) := run (k r) w1 in
      (o, w2, call_of op r :: cs)
  end.

(** One resumption of a suspended program: the pending call settles and
    the program continues up to its next call. *)
Definition step {A} (p : Prog A) (w : World) : Prog A * World * list Call :=
  match p with
  | Eff op k => let '(r, w1) := perform op w in (k r, w1, [call_of op r])
  | _ => (p, w, [])
  end.

(** A call of the logger.  [logger.info] and [logger.error] are not
    awaited: the call returns at once and the caller goes on. *)
Definition log (l : Level) (e : option Err) (msg : string) : Prog unit :=
  Eff (Log l e msg) (fun _ => Ret tt).

Definition synchronous {B} (op : Op B) : bool :=
  match op with Log _ _ _ => true | _ => false end.

(** The calls a program makes without being suspended, up to its next
    [await] or to its end. *)
Fixpoint sync {A} (p : Prog A) (w : World) : Prog A * World * list Call :=
  match p with
  | Eff op k =>
      if synchronous op then
        let '(r, w1) := perform op w in
        let '(p', w2, cs) := sync (k r) w1 in
        (p', w2, call_of op r :: cs)
      else (p, w, [])
  | _ => (p, w, [])
  end.

(** One resumption of a program that also logs: the pending call settles
    and the program continues, through the calls of the logger, up to its
    next [await] or to its end. *)
Definition resume {A} (p : Prog A) (w : World) : Prog A * World * list Call :=
  let '(p1, w1, cs1) := step p w in
  let '(p2, w2, cs2) := sync p1 w1 in
  (p2, w2, cs1 ++ cs2).

(** ** The functions of parser-queue.js *)

(** [updateFeed(feedData)], lines 13-29.  [feedData] is an element of the
    array handed to [processFeeds]; [None] is JavaScript's [null], on which
    [feedData.url] throws. *)
Definition updateFeed (feedData : option FeedData) : Prog (option Feed) :=
  match feedData with
  | None => Throw TypeError
  | Some d =>
      let* existingFeed := await (FeedByUrl (url d)) in
      match existingFeed with
      | Some f => Ret (Some f)
      | None =>
          let* id := await (FeedCreate d) in
          let* currentFeed := await (FeedById id) in
          Ret currentFeed
      end
  end.

Definition unknown_reason : string := "unknown reason"%string.

(** [invalidateFeed(id)], lines 35-40. *)
Definition invalidateFeed (id : Id) : Prog unit :=
  let* feed := await (FeedById id) in
  match feed with
  | None => Throw TypeError
  | Some f =>
      let* _ := await (SetInvalid f unknown_reason) in
      log Info None
          ("Invalidating feed " ++ feed_url f ++
           " for the following reason: " ++ unknown_reason)%string
  end.

(** The callback of [feeds.map] in [processFeeds], lines 48-53. *)
Definition processFeed (feed : option FeedData) : Prog unit :=
  let* currentFeed := updateFeed feed in
  match currentFeed with
  | None => Throw TypeError
  | Some f => await (AddFeed (feed_id f))
  end.

(** [processFeeds(feeds)], lines 46-55: the promises handed to
    [Promise.all]. *)
Definition processFeeds (feeds : list (option FeedData)) : list (Prog unit) :=
  map processFeed feeds.

(** What a [flatMap] callback returns: an array, spread into the result, or
    [null], which is not an array and becomes an element of the result. *)
Inductive Returns (B : Type) :=
| JsArray (l : list B)
| JsNull.
Arguments JsArray {B} l.
Arguments JsNull {B}.

(** [Array.prototype.flatMap]. *)
Definition flatMap {A B} (callback : A -> Returns B) (arr : list A)
  : list (option B) :=
  concat (map (fun x => match callback x with
                        | JsArray l => map Some l
                        | JsNull => [None]
                        end) arr).

(** A [Feed] object of [Feed.all()] seen as an argument of [updateFeed],
    which reads its [url] and hands it to [Feed.create]. *)
Definition feedData_of (f : Feed) : FeedData :=
  mkFeedData (feed_url f) (feed_author f).

Inductive Collected :=
| NoWork
| ToProcess (feeds : list (option FeedData)).

(** [processAllFeeds], lines 64-74, up to the call of [processFeeds]: the
    array [[...all, ...userFeeds]] when the directory answered 200. *)
Definition collectFeeds : Prog Collected :=
  let* res := await Fetch in
  if Nat.eqb (status res) 200 then
    let feeds :=
      flatMap (fun user => if negb (isFlagged user)
                           then JsArray (feeds user) else JsNull)
              (body res) in
    let* all := await FeedAll in
    let userFeeds := feeds in
    Ret (ToProcess (map (fun f => Some (feedData_of f)) all ++ userFeeds))
  else Ret NoWork.

(** ** One pass *)

Inductive Actor :=
| Main                 (* the body of processAllFeeds *)
| Callback (i : nat).  (* the callback of processFeeds for element i *)

Definition Event : Type := Actor * Call.

Definition tag (a : Actor) (cs : list Call) : list Event := map (pair a) cs.

(** A call of [processAllFeeds] in flight. *)
Inductive Pass :=
| Collecting (c : Prog Collected)   (* suspended within lines 64-72 *)
| Joining (cbs : list (Prog unit))  (* suspended at line 74 on Promise.all *)
| Returned (cbs : list (Prog unit)).
  (* processAllFeeds has returned; callbacks still suspended go on *)

Definition rejection {A} (p : Prog A) : option Err :=
  match p with Throw e => Some e | _ => None end.

Definition fulfilled {A} (p : Prog A) : bool :=
  match p with Ret _ => true | _ => false end.

(** A callback that has run to its end, one way or the other. *)
Definition settled {A} (p : Prog A) : bool :=
  match p with Eff _ _ => false | _ => true end.

(** Line 77, the [catch] of [processAllFeeds]. *)
Definition error_queuing (err : Err) : Event :=
  (Main, CLog Error (Some err) "Error queuing feeds"%string (Fulfilled tt)).

(** [await Promise.all(cbs)] inside the [try] of [processAllFeeds]: it
    throws as soon as a callback is rejected, returns when all are
    fulfilled, and stays suspended otherwise. *)
Definition join (cbs : list (Prog unit)) : Pass * list Event :=
  match head (omap rejection cbs) with
  | Some err => (Returned cbs, [error_queuing err])
  | None => if forallb fulfilled cbs then (Returned cbs, [])
            else (Joining cbs, [])
  end.

(** One resumption within a pass: of its body while it collects, of
    callback [i] afterwards. *)
Definition pass_step (i : nat) (p : Pass) (w : World)
  : Pass * World * list Event :=
  match p with
  | Collecting c =>
      let '(c', w', cs) := step c w in
      match c' with
      | Ret NoWork => (Returned [], w', tag Main cs)
      | Ret (ToProcess feeds) =>
          let '(p', evs) := join (processFeeds feeds) in
          (p', w', tag Main cs ++ evs)
      | Throw err => (Returned [], w', tag Main cs ++ [error_queuing err])
      | Eff _ _ => (Collecting c', w', tag Main cs)
      end
  | Joining cbs =>
      match cbs !! i with
      | Some t =>
          let '(t', w', cs) := step t w in
          let '(p', evs) := join (<[i:=t']> cbs) in
          (p', w', tag (Callback i) cs ++ evs)
      | None => (p, w, [])
      end
  | Returned cbs =>
      match cbs !! i with
      | Some t =>
          let '(t', w', cs) := step t w in
          (Returned (<[i:=t']> cbs), w', tag (Callback i) cs)
      | None => (p, w, [])
      end
  end.

(** A pass under a schedule: the list, in order, of the callbacks resumed.
    While the body of the pass is suspended (on the fetch, then on
    [Feed.all()]) an entry resumes the body, whatever its value. *)
Fixpoint pass_run (sched : list nat) (p : Pass) (w : World)
  : Pass * World * list Event :=
  match sched with
  | [] => (p, w, [])
  | i :: sched' =>
      let '(p1, w1, evs1) := pass_step i p w in
      let '(p2, w2, evs2) := pass_run sched' p1 w1 in
      (p2, w2, evs1 ++ evs2)
  end.

(** [processAllFeeds()], lines 61-79: the call runs up to [await fetch]. *)
Definition processAllFeeds : Pass := Collecting collectFeeds.

Definition callbacks (p : Pass) : list (Prog unit) :=
  match p with
  | Collecting _ => []
  | Joining cbs | Returned cbs => cbs
  end.

Definition returned (p : Pass) : bool :=
  match p with Returned _ => true | _ => false end.

Definition addFeed_ids (evs : list Event) : list Id :=
  omap (fun ev => match snd ev with
                  | CAddFeed i _ => Some i
                  | _ => None
                  end) evs.

Definition is_store_write (c : Call) : bool :=
  match c with
  | CCreate _ _ | CSetInvalid _ _ _ => true
  | _ => false
  end.

Definition logged_error (msg : string) (evs : list Event) : bool :=
  existsb (fun ev => match snd ev with
                     | CLog Error _ m _ => String.eqb m msg
                     | _ => false
                     end) evs.

Definition succeeded (p : Pass) : bool :=
  match p with
  | Returned cbs => forallb fulfilled cbs
  | _ => false
  end.

(** What the directory answers when the fetch has failed. *)
Definition fetch_failed (r : Outcome Response) : Prop :=
  match r with
  | Rejected _ => True
  | Fulfilled res => status res <> 200
  end.

(** The calls made by the callback of element [i]. *)
Definition calls_of (i : nat) (evs : list Event) : list Call :=
  omap (fun ev => match fst ev with
                  | Callback j => if Nat.eqb j i then Some (snd ev) else None
                  | Main => None
                  end) evs.

(** [processFeeds(feeds)] awaited on its own, under a schedule of
    resumptions of its callbacks. *)
Definition processFeeds_run (sched : list nat) (feeds : list (option FeedData))
  (w : World) : Pass * World * list Event :=
  let '(p, evs0) := join (processFeeds feeds) in
  let '(p', w', evs) := pass_run sched p w in
  (p', w', evs0 ++ evs).

(** ** The module: listeners and [startParserQueue] *)

(** Lines 98-100, the listener of ['failed']. *)
Definition onFailed (id : Id) : Prog unit :=
  catch (invalidateFeed id)
        (fun error =>
           log Error (Some error) "Unable to invalidate feed"%string).

Inductive Origin :=
| OfModule
| OfPass (n : nat) (a : Actor)
| OfHandler (n : nat).

Record System := mkSystem {
  world : World;
  passes : list Pass;            (* the calls of processAllFeeds so far *)
  handlers : list (Prog unit);   (* the 'failed' handlers so far *)
  workerStarted : bool;
  journal : list (Origin * Call)
}.

(** [loadFeedsIntoQueue()], lines 81-86.  The promise of [processAllFeeds]
    is never rejected (its body is one [try]/[catch]), so the [.catch] of
    line 83 has nothing to handle. *)
Definition loadFeedsIntoQueue (s : System) : System :=
  mkSystem (world s)
           (passes s ++ [processAllFeeds])
           (handlers s)
           (workerStarted s)
           (journal s ++
            [(OfModule,
              CLog Info None
                   "Loading all feeds into feed queue for processing"%string
                   (Fulfilled tt))]).

(** [startParserQueue()], lines 105-108. *)
Definition startParserQueue (s : System) : System :=
  let s' := loadFeedsIntoQueue s in
  mkSystem (world s') (passes s') (handlers s') true (journal s').

Inductive Input :=
| StartParserQueue            (* the exported function is called *)
| Drained                     (* feedQueue emits 'drained', line 92 *)
| Failed (id : Id)            (* feedQueue emits 'failed', job.data.id *)
| ResumePass (n i : nat)      (* pass n resumes: its body, or callback i *)
| ResumeHandler (n : nat).    (* 'failed' handler n resumes *)

Definition react (inp : Input) (s : System) : System :=
  match inp with
  | StartParserQueue => startParserQueue s
  | Drained => loadFeedsIntoQueue s
  | Failed id =>
      mkSystem (world s) (passes s) (handlers s ++ [onFailed id])
               (workerStarted s) (journal s)
  | ResumePass n i =>
      match passes s !! n with
      | Some p =>
          let '(p', w', evs) := pass_step i p (world s) in
          mkSystem w' (<[n:=p']> (passes s)) (handlers s) (workerStarted s)
                   (journal s ++ map (fun ev => (OfPass n (fst ev), snd ev)) evs)
      | None => s
      end
  | ResumeHandler n =>
      match handlers s !! n with
      | Some h =>
          let '(h', w', cs) := resume h (world s) in
          mkSystem w' (passes s) (<[n:=h']> (handlers s)) (workerStarted s)
                   (journal s ++ map (pair (OfHandler n)) cs)
      | None => s
      end
  end.

Definition exec (inps : list Input) (s : System) : System :=
  foldl (fun s inp => react inp s) s inps.

(** The module once loaded: both listeners registered, nothing started. *)
Definition loaded (w : World) : System := mkSystem w [] [] false [].

(** Calls of [processAllFeeds] that have not returned. *)
Definition in_flight (s : System) : nat :=
  length (List.filter (fun p => negb (returned p)) (passes s)).

(** ** Where a callback of [processFeeds] can be *)

(** The calls of a completed [updateFeed(d)] that returned the feed [f]:
    the lookup found it, or the lookup found nothing, the create answered
    an id and the read by that id found it. *)
Definition resolved (d : FeedData) (h : list Call) (f : Feed) : Prop :=
  h = [CByUrl (url d) (Fulfilled (Some f))]
  \/ exists id, h = [CByUrl (url d) (Fulfilled None);
                     CCreate d (Fulfilled id);
                     CById id (Fulfilled (Some f))].

(** Line 52, with the result of [updateFeed] at hand. *)
Definition enqueue (currentFeed : option Feed) : Prog unit :=
  match currentFeed with
  | None => Throw TypeError
  | Some f => await (AddFeed (feed_id f))
  end.

(** [reached feed t h]: the callback for the element [feed] can be in
    state [t] after the calls [h]; one case per line it can be suspended
    at, and per way it can end. *)
Inductive reached : option FeedData -> Prog unit -> list Call -> Prop :=
| at_null :
    reached None (Throw TypeError) []
| at_byUrl d :                                           (* line 18 *)
    reached (Some d) (processFeed (Some d)) []
| at_create d :                                          (* line 24 *)
    reached (Some d)
      (bind (let* id := await (FeedCreate d) in
             let* currentFeed := await (FeedById id) in
             Ret currentFeed) enqueue)
      [CByUrl (url d) (Fulfilled None)]
| at_byId d id :                                         (* line 25 *)
    reached (Some d)
      (bind (let* currentFeed := await (FeedById id) in
             Ret currentFeed) enqueue)
      [CByUrl (url d) (Fulfilled None); CCreate d (Fulfilled id)]
| at_addFeed d h f :                                     (* line 52 *)
    resolved d h f ->
    reached (Some d) (await (AddFeed (feed_id f))) h
| at_done d h f :
    resolved d h f ->
    reached (Some d) (Ret tt) (h ++ [CAddFeed (feed_id f) (Fulfilled tt)])
| at_duplicate d :
    reached (Some d) (Throw DuplicateUrl)
      [CByUrl (url d) (Fulfilled None); CCreate d (Rejected DuplicateUrl)]
| at_vanished d id :
    reached (Some d) (Throw TypeError)
      [CByUrl (url d) (Fulfilled None); CCreate d (Fulfilled id);
       CById id (Fulfilled None)].

(** A call that a callback makes for the feed data [d]. *)
Definition about (d : FeedData) (c : Call) : Prop :=
  match c with
  | CByUrl u _ => u = url d
  | CCreate d' _ => d' = d
  | CById _ _ | CAddFeed _ _ => True
  | _ => False
  end.

Definition is_addFeed (c : Call) : bool :=
  match c with CAddFeed _ _ => true | _ => false end.

Definition count_fulfilled (cbs : list (Prog unit)) : nat :=
  length (List.filter fulfilled cbs).

Definition b2n (b : bool) : nat := if b then 1 else 0.

(** No call of [addFeed] among the events. *)
Definition no_addFeed (evs : list Event) : Prop :=
  Forall (fun ev => is_addFeed (snd ev) = false) evs.

(** What holds of the callbacks of [processFeeds(feeds)] at any moment:
    every element has its callback, in a state its own calls account for;
    [addFeed] was called once per fulfilled callback, and never by the
    body of [processAllFeeds]. *)
Definition callbacks_inv (feeds : list (option FeedData))
  (cbs : list (Prog unit)) (evs : list Event) : Prop :=
  (forall i,
      match feeds !! i with
      | Some feed => exists t, cbs !! i = Some t
                               /\ reached feed t (calls_of i evs)
      | None => cbs !! i = None /\ calls_of i evs = []
      end)
  /\ length (addFeed_ids evs) = count_fulfilled cbs
  /\ Forall (fun ev => fst ev = Main -> is_addFeed (snd ev) = false) evs.

(** What holds of a pass from the moment [processFeeds(feeds)] is called:
    the above, and [Promise.all] is pending only while no callback is
    rejected, and has thrown into the [catch] of line 76 unless all
    callbacks were fulfilled. *)
Definition pass_inv (feeds : list (option FeedData)) (p : Pass)
  (evs : list Event) : Prop :=
  callbacks_inv feeds (callbacks p) evs
  /\ match p with
     | Collecting _ => False
     | Joining cbs =>
         head (omap rejection cbs) = None /\ forallb fulfilled cbs = false
     | Returned cbs =>
         logged_error "Error queuing feeds"%string evs = true
         \/ forallb fulfilled cbs = true
     end.

(** The array [feeds] of line 71 for a directory response. *)
Definition userFeeds (res : Response) : list (option FeedData) :=
  flatMap (fun user => if negb (isFlagged user)
                       then JsArray (feeds user) else JsNull)
          (body res).

(** The array [[...all, ...userFeeds]] of line 74. *)
Definition all_feeds (w : World) (res : Response) : list (option FeedData) :=
  map (fun f => Some (feedData_of f)) (store w) ++ userFeeds res.

(** The feeds listed by the users that are not flagged. *)
Definition discovered (res : Response) : list FeedData :=
  concat (map feeds (List.filter (fun user => negb (isFlagged user))
                                 (body res))).

(** [processAllFeeds] suspended on [Feed.all()], line 72. *)
Definition awaiting_all (res : Response) : Prog Collected :=
  let* all := await FeedAll in
  Ret (ToProcess (map (fun f => Some (feedData_of f)) all ++ userFeeds res)).

Definition collecting (p : Pass) : bool :=
  match p with Collecting _ => true | _ => false end.

(** How far the callback of element [j] has come: the number of calls it
    has made, and 4, which no callback exceeds, once it has settled. *)
Definition progress (j : nat) (p : Pass) (evs : list Event) : nat :=
  match callbacks p !! j with
  | Some t => if settled t then 4 else length (calls_of j evs)
  | None => 4
  end.

(** ** Sample data *)

Definition url_a : string := "https://a.example/feed"%string.
Definition url_b : string := "https://b.example/feed"%string.
Definition url_c : string := "https://c.example/feed"%string.

(** A persisted feed carrying caching metadata. *)
Definition feed_a : Feed :=
  mkFeed 1 url_a "Ann"%string (Some "W/33a64df5"%string) true None.

(** The same URL as the directory reports it, under another author. *)
Definition source_a : FeedData := mkFeedData url_a "Ann B."%string.
Definition source_b : FeedData := mkFeedData url_b "Bob"%string.
Definition source_c : FeedData := mkFeedData url_c "Carl"%string.

Definition ok (users : list User) : Outcome Response :=
  Fulfilled (mkResponse 200 users).

(** A persisted feed that the directory lists again. *)
Definition rediscovered : World :=
  mkWorld [feed_a] (ok [mkUser false [source_a]]).

(** One user listing the same new URL twice. *)
Definition listed_twice : World :=
  mkWorld [] (ok [mkUser false [source_b; mkFeedData url_b "Robert"%string]]).

(** A flagged user with one feed, an unflagged user with two. *)
Definition with_flagged : Response :=
  mkResponse 200 [mkUser true [source_c]; mkUser false [source_a; source_b]].

(** ** The claims that the code does not meet, as stated *)

(** Full enqueue: after a successful pass there are as many calls of
    [addFeed] as distinct feed ids among the persisted feeds and the feeds
    the discovered sources were reconciled into, which together are the
    records of the store after the pass. *)
Definition full_enqueue_claim (w : World) (sched : list nat) : Prop :=
  let '(p, w', evs) := pass_run sched processAllFeeds w in
  succeeded p = true ->
  length (addFeed_ids evs) = length (remove_dups (map feed_id (store w'))).

(** Duplicate tolerance: a source whose [Feed.create] is rejected with
    [DuplicateUrl] is enqueued under the id of the existing feed, and the
    pass does not end in its [catch]. *)
Definition duplicate_tolerated_claim (w : World) (sched : list nat) : Prop :=
  let '(p, w', evs) := pass_run sched processAllFeeds w in
  forall i d,
    In (Callback i, CCreate d (Rejected DuplicateUrl)) evs ->
    logged_error "Error queuing feeds"%string evs = false
    /\ exists f, byUrl (store w') (url d) = Some f
                 /\ In (Callback i, CAddFeed (feed_id f) (Fulfilled tt)) evs.

(** Single flight: whatever the module receives, at most one call of
    [processAllFeeds] has not returned. *)
Definition single_flight_claim (w : World) (inps : list Input) : Prop :=
  in_flight (exec inps (loaded w)) <= 1.

(** Create, then re-read: a callback whose lookup by URL found nothing has,
    once it has run to its end, created a feed and read it under the id
    that [Feed.create] answered. *)
Definition creates_then_rereads_claim (w : World) (sched : list nat) : Prop :=
  let '(p, w', evs) := pass_run sched processAllFeeds w in
  forall i t u,
    callbacks p !! i = Some t ->
    settled t = true ->
    In (CByUrl u (Fulfilled None)) (calls_of i evs) ->
    exists d id currentFeed,
      In (CCreate d (Fulfilled id)) (calls_of i evs)
      /\ In (CById id (Fulfilled (Some currentFeed))) (calls_of i evs).

(** ** Further vocabulary *)

(** A [Feed.create] that stored a record. *)
Definition is_created (c : Call) : bool :=
  match c with CCreate _ (Fulfilled _) => true | _ => false end.

Definition created_count (evs : list Event) : nat :=
  length (List.filter (fun ev => is_created (snd ev)) evs).

(** A callback suspended on line 52: it has called [addFeed] and awaits
    the promise. *)
Definition awaits_addFeed (t : Prog unit) : bool :=
  match t with
  | Eff op _ => match op with AddFeed _ => true | _ => false end
  | _ => false
  end.

(** The calls of [addFeed] made so far: those that have settled, which the
    trace holds, and those that a callback still awaits. *)
Definition addFeed_called (p : Pass) (evs : list Event) : nat :=
  length (addFeed_ids evs)
  + length (List.filter awaits_addFeed (callbacks p)).

(** A lookup by URL that found nothing. *)
Definition is_miss (c : Call) : bool :=
  match c with CByUrl _ (Fulfilled None) => true | _ => false end.

(** A read of the store that answered the feed [f]. *)
Definition answered (f : Feed) (c : Call) : Prop :=
  match c with
  | CByUrl _ (Fulfilled (Some g)) | CById _ (Fulfilled (Some g)) => g = f
  | _ => False
  end.

(** Every feed that a read has answered so far has a record under its id
    in the store [w]. *)
Definition known_replies (w : World) (evs : list Event) : Prop :=
  forall a c f, In (a, c) evs -> answered f c ->
                byId (store w) (feed_id f) <> None.

(** JavaScript's [null] among the entries of an array. *)
Definition is_null {A} (x : option A) : bool :=
  match x with None => true | Some _ => false end.

(** What starts a pass: the exported function, and 'drained'. *)
Definition is_trigger (inp : Input) : bool :=
  match inp with StartParserQueue | Drained => true | _ => false end.

Definition is_failed (inp : Input) : bool :=
  match inp with Failed _ => true | _ => false end.

(** The pass over the array [feeds], started in the world [w0], has so
    far changed nothing, and no lookup by URL has missed. *)
Definition reads_only (w0 : World) (feeds : list (option FeedData))
  (p : Pass) (w : World) (evs : list Event) : Prop :=
  pass_inv feeds p evs
  /\ w = w0
  /\ forall i, Forall (fun c => is_miss c = false) (calls_of i evs).

(** The feeds a pass starts from, as arguments of [updateFeed]. *)
Definition persisted (w : World) : list FeedData :=
  map feedData_of (store w).

(** * Properties *)

(** ** The store *)

Section Find.
Context {A : Type} (p : A -> bool).

Lemma find_snoc (l : list A) (x : A) :
  find p (l ++ [x]) =
  match find p l with
  | Some y => Some y
  | None => if p x then Some x else None
  end.
Proof.
  induction l as [|y l IH]; simpl.
  - reflexivity.
  - destruct (p y); [reflexivity | exact IH].
Qed.



Lemma find_Some_holds (l : list A) (x : A) :
  find p l = Some x -> p x = true.
Proof.
  induction l as [|y l IH]; simpl; [discriminate|].
  destruct (p y) eqn:E; [congruence | exact IH].
Qed.

Lemma find_map_stable (g : A -> A) (l : list A) :
  (forall y, p (g y) = p y) ->
  find p (map g l) = option_map g (find p l).
Proof.
  intros Hg. induction l as [|y l IH]; simpl; [reflexivity|].
  rewrite Hg. destruct (p y); [reflexivity | exact IH].
Qed.
End Find.

Lemma byId_id fs i f : byId fs i = Some f -> feed_id f = i.
Proof.
  intros H. apply find_Some_holds in H. now apply Nat.eqb_eq in H.
Qed.

Lemma byId_below_fresh fs : byId fs (fresh_id fs) = None.
Proof.
  destruct (byId fs (fresh_id fs)) as [f|] eqn:E; [|reflexivity].
  exfalso.
  assert (Hin : feed_id f ∈ map feed_id fs).
  { apply list_elem_of_In, in_map, (find_some _ _ E). }
  apply max_list_elem_of_le in Hin.
  apply byId_id in E. unfold fresh_id in E. lia.
Qed.

Lemma create_when_absent fs d :
  byUrl fs (url d) = None ->
  create fs d = (Fulfilled (fresh_id fs), fs ++ [new_record fs d]).
Proof. intros H. unfold create. now rewrite H. Qed.

(** Read-after-write: the record just created is the one its id names, and
    the one its URL names. *)
Lemma created_record_found fs d :
  byUrl fs (url d) = None ->
  byId (fs ++ [new_record fs d]) (fresh_id fs) = Some (new_record fs d)
  /\ byUrl (fs ++ [new_record fs d]) (url d) = Some (new_record fs d).
Proof.
  intros H. split.
  - unfold byId. rewrite find_snoc. fold (byId fs (fresh_id fs)).
    rewrite byId_below_fresh. simpl. now rewrite Nat.eqb_refl.
  - unfold byUrl. rewrite find_snoc. fold (byUrl fs (url d)).
    rewrite H. simpl. now rewrite String.eqb_refl.
Qed.

Lemma create_rejected fs d e fs' :
  create fs d = (Rejected e, fs') ->
  e = DuplicateUrl /\ fs' = fs /\ byUrl fs (url d) <> None.
Proof.
  unfold create. destruct (byUrl fs (url d)); [|discriminate].
  intros [= <- <-]. repeat split. discriminate.
Qed.

(** [setInvalid] marks the record that the feed's id names at that
    moment. *)
Lemma setInvalid_current fs f g reason :
  byId fs (feed_id f) = Some g ->
  setInvalid fs f reason =
  (Fulfilled tt,
   map (fun h => if Nat.eqb (feed_id h) (feed_id f)
                 then invalidated reason h else h) fs)
  /\ byId (map (fun h => if Nat.eqb (feed_id h) (feed_id f)
                         then invalidated reason h else h) fs) (feed_id f)
     = Some (invalidated reason g).
Proof.
  intros H. unfold setInvalid. rewrite H. split; [reflexivity|].
  unfold byId.
  rewrite (find_map_stable (fun h => Nat.eqb (feed_id h) (feed_id f))).
  - fold (byId fs (feed_id f)). rewrite H. simpl.
    apply byId_id in H. now rewrite H, Nat.eqb_refl.
  - intros y. destruct (Nat.eqb (feed_id y) (feed_id f)) eqn:E; simpl;
      now rewrite E.
Qed.

(** ** Reconciliation: [updateFeed] *)

(** What [updateFeed] does with a URL the store has a record for. *)
Lemma updateFeed_known_url (w : World) (d : FeedData) (f : Feed) :
  byUrl (store w) (url d) = Some f ->
  run (updateFeed (Some d)) w =
  (Fulfilled (Some f), w, [CByUrl (url d) (Fulfilled (Some f))]).
Proof. intros H. simpl. now rewrite H. Qed.

(** C3. When [Feed.byUrl] finds a persisted record for the URL of the
    discovered source, [updateFeed] returns that very record, all fields as
    stored, and the only call it makes is the lookup: the world is
    unchanged, nothing is created or written. *)
Theorem updateFeed_prefers_persisted (w : World) (d : FeedData) (f : Feed) :
  byUrl (store w) (url d) = Some f ->
  run (updateFeed (Some d)) w =
  (Fulfilled (Some f), w, [CByUrl (url d) (Fulfilled (Some f))]).
Proof.
  intros Hfound.
  unfold updateFeed. cbn [bind await run perform call_of].
  rewrite Hfound. reflexivity.
Qed.

Lemma updateFeed_prefers_persisted_witness :
  run (updateFeed (Some source_a)) (mkWorld [feed_a] (ok [])) =
  (Fulfilled (Some feed_a), mkWorld [feed_a] (ok []),
   [CByUrl url_a (Fulfilled (Some feed_a))]).
Proof.
  apply (updateFeed_prefers_persisted (mkWorld [feed_a] (ok [])) source_a).
  reflexivity.
Defined.

(** What [updateFeed] does with a URL the store has no record for. *)
Lemma updateFeed_first_sight (w : World) (d : FeedData) :
  byUrl (store w) (url d) = None ->
  run (updateFeed (Some d)) w =
  (Fulfilled (Some (new_record (store w) d)),
   mkWorld (store w ++ [new_record (store w) d]) (directory w),
   [CByUrl (url d) (Fulfilled None);
    CCreate d (Fulfilled (fresh_id (store w)));
    CById (fresh_id (store w)) (Fulfilled (Some (new_record (store w) d)))]).
Proof.
  intros H. destruct (created_record_found _ _ H) as [Hid _].
  simpl. rewrite H. simpl. rewrite (create_when_absent _ _ H). simpl.
  now rewrite Hid.
Qed.

(** Whatever call is made, an id that names a record goes on naming one,
    with the same URL. *)
Lemma perform_keeps_record {B} (op : Op B) w i f :
  byId (store w) i = Some f ->
  exists f', byId (store (perform op w).2) i = Some f'
             /\ feed_url f' = feed_url f.
Proof.
  intros H. destruct op; simpl; try now exists f.
  - unfold create. destruct (byUrl (store w) (url f0)); simpl.
    + now exists f.
    + exists f. unfold byId. rewrite find_snoc. fold (byId (store w) i).
      now rewrite H.
  - unfold setInvalid. destruct (byId (store w) (feed_id f0)); simpl.
    + exists (if Nat.eqb (feed_id f) (feed_id f0)
              then invalidated s f else f).
      split.
      * unfold byId.
        rewrite (find_map_stable (fun g => Nat.eqb (feed_id g) i)).
        -- fold (byId (store w) i). now rewrite H.
        -- intros y. now destruct (Nat.eqb (feed_id y) (feed_id f0)).
      * now destruct (Nat.eqb (feed_id f) (feed_id f0)).
    + now exists f.
Qed.

Lemma disturb_keeps_record ops w i f :
  byId (store w) i = Some f ->
  exists f', byId (store (disturb ops w)) i = Some f'
             /\ feed_url f' = feed_url f.
Proof.
  revert w f. induction ops as [|[B op] ops IH]; intros w f H.
  - now exists f.
  - destruct (perform_keeps_record op w i f H) as (f1 & H1 & Hu1).
    destruct (IH _ _ H1) as (f2 & H2 & Hu2).
    exists f2. split; [exact H2 | congruence].
Qed.

(** C8, as the code has it.  [updateFeed] is suspended at each of its
    calls, and other code (the other callbacks of [processFeeds], another
    pass, a 'failed' handler) runs in between.  When the lookup finds
    nothing, what follows depends on the store at the moment
    [Feed.create] runs.  If the URL still has no record, [updateFeed]
    creates one from the discovered data, reads the store again under the
    id that [create] answered, and returns the record this read found, as
    the store then has it, with that id and the URL.  If the URL has got a
    record in the meantime, [create] is rejected with [DuplicateUrl] and
    so is [updateFeed]: nothing is created, read or returned. *)
Theorem updateFeed_creates_then_rereads (w : World) (d : FeedData)
  (meanwhile later : list SomeOp) :
  byUrl (store w) (url d) = None ->
  let '(t1, w1, c1) := step (updateFeed (Some d)) w in
  let '(t2, w2, c2) := step t1 (disturb meanwhile w1) in
  let '(t3, w3, c3) := step t2 (disturb later w2) in
  w1 = w
  /\ c1 = [CByUrl (url d) (Fulfilled None)]
  /\ match byUrl (store (disturb meanwhile w)) (url d) with
     | None =>
         exists (id : Id) (currentFeed : Feed),
           c2 = [CCreate d (Fulfilled id)]
           /\ store w2 = store (disturb meanwhile w)
                         ++ [new_record (store (disturb meanwhile w)) d]
           /\ feed_id (new_record (store (disturb meanwhile w)) d) = id
           /\ c3 = [CById id (Fulfilled (Some currentFeed))]
           /\ w3 = disturb later w2
           /\ byId (store w3) id = Some currentFeed
           /\ feed_id currentFeed = id
           /\ feed_url currentFeed = url d
           /\ t3 = Ret (Some currentFeed)
     | Some _ =>
         c2 = [CCreate d (Rejected DuplicateUrl)]
         /\ w2 = disturb meanwhile w
         /\ t2 = Throw DuplicateUrl
         /\ c3 = []
         /\ t3 = Throw DuplicateUrl
     end.
Proof.
  intros H. simpl. rewrite H. simpl.
  set (wc := disturb meanwhile w).
  unfold create. destruct (byUrl (store wc) (url d)) as [g|] eqn:Hc; simpl.
  - repeat split. now destruct wc.
  - split; [reflexivity|]. split; [reflexivity|].
    destruct (created_record_found _ _ Hc) as [Hid _].
    destruct (disturb_keeps_record later
                (mkWorld (store wc ++ [new_record (store wc) d])
                         (directory wc)) _ _ Hid) as (f & Hf & Hu).
    rewrite Hf. exists (fresh_id (store wc)), f.
    repeat split; [exact Hf | exact (byId_id _ _ _ Hf) | exact Hu].
Qed.

Lemma updateFeed_creates_then_rereads_witness :
  let '(t1, w1, c1) :=
    step (updateFeed (Some source_b)) (mkWorld [feed_a] (ok [])) in
  let '(t2, w2, c2) :=
    step t1 (disturb [some_op (FeedCreate source_c)] w1) in
  let '(t3, w3, c3) :=
    step t2 (disturb [some_op (FeedById 1)] w2) in
  w1 = mkWorld [feed_a] (ok [])
  /\ c1 = [CByUrl url_b (Fulfilled None)]
  /\ exists (id : Id) (currentFeed : Feed),
       c2 = [CCreate source_b (Fulfilled id)]
       /\ store w2 = [feed_a; mkFeed 2 url_c "Carl"%string None true None;
                      mkFeed 3 url_b "Bob"%string None true None]
       /\ 3 = id
       /\ c3 = [CById id (Fulfilled (Some currentFeed))]
       /\ w3 = disturb [some_op (FeedById 1)] w2
       /\ byId (store w3) id = Some currentFeed
       /\ feed_id currentFeed = id
       /\ feed_url currentFeed = url_b
       /\ t3 = Ret (Some currentFeed).
Proof.
  apply (updateFeed_creates_then_rereads
           (mkWorld [feed_a] (ok [])) source_b
           [some_op (FeedCreate source_c)] [some_op (FeedById 1)]).
  reflexivity.
Defined.






(** ** Invalidation: the listener of ['failed'] *)

(** C6. The listener of ['failed'] run for a job with feed id [X]: its
    promise is fulfilled whatever happens (the rejection of
    [invalidateFeed] is caught); when the store has a record with id [X],
    that record is afterwards invalid with the reason "unknown reason",
    which is not the empty string; when it has none, the world is
    unchanged and no write was attempted. *)
Theorem failed_event_invalidates (w : World) (X : Id) :
  let '(r, w', cs) := run (onFailed X) w in
  r = Fulfilled tt
  /\ match byId (store w) X with
     | Some f =>
         exists f', byId (store w') X = Some f'
                    /\ f' = invalidated unknown_reason f
                    /\ feed_isValid f' = false
                    /\ feed_reason f' = Some unknown_reason
                    /\ unknown_reason <> ""%string
     | None =>
         w' = w /\ Forall (fun c => is_store_write c = false) cs
     end.
Proof.
  destruct (byId (store w) X) as [f|] eqn:H.
  - pose proof (byId_id _ _ _ H) as <-.
    destruct (setInvalid_current _ _ _ unknown_reason H) as [Hs Hb].
    simpl. rewrite H. simpl. rewrite Hs. simpl.
    split; [reflexivity|].
    eexists. split; [exact Hb|]. repeat split. discriminate.
  - simpl. rewrite H. simpl. split; [reflexivity|].
    split; [reflexivity|]. repeat constructor.
Qed.

(** Whatever call is made, an id that has a record keeps one. *)
Lemma perform_keeps_id {B} (op : Op B) w i f :
  byId (store w) i = Some f ->
  exists f', byId (store (perform op w).2) i = Some f'.
Proof.
  intros H. destruct op; simpl; try now exists f.
  - unfold create. destruct (byUrl (store w) (url f0)); simpl.
    + now exists f.
    + exists f. unfold byId. rewrite find_snoc. fold (byId (store w) i).
      now rewrite H.
  - unfold setInvalid. destruct (byId (store w) (feed_id f0)); simpl.
    + eexists. unfold byId.
      rewrite (find_map_stable (fun g => Nat.eqb (feed_id g) i)).
      * fold (byId (store w) i). now rewrite H.
      * intros y. now destruct (Nat.eqb (feed_id y) (feed_id f0)).
    + now exists f.
Qed.

Lemma disturb_keeps_id ops w i f :
  byId (store w) i = Some f ->
  exists f', byId (store (disturb ops w)) i = Some f'.
Proof.
  revert w f. induction ops as [|[B op] ops IH]; intros w f H.
  - now exists f.
  - destruct (perform_keeps_id op w i f H) as [f1 H1].
    exact (IH _ _ H1).
Qed.

(** X17. The handler of 'failed' when other code calls the store between
    its read of the feed (line 36) and the invalidation (line 38): the read
    changes nothing, the handler ends fulfilled, and the record that the id
    then names is marked invalid with the reason 'unknown reason'. *)
Lemma failed_event_invalidates_amid_calls (w : World) (X : Id) (f : Feed)
  (meanwhile : list SomeOp) :
  byId (store w) X = Some f ->
  let '(h1, w1, _) := step (onFailed X) w in
  let '(r, w2, _) := run h1 (disturb meanwhile w1) in
  w1 = w
  /\ r = Fulfilled tt
  /\ exists f', byId (store w2) X = Some f'
                /\ feed_isValid f' = false
                /\ feed_reason f' = Some unknown_reason.
Proof.
  intros H. pose proof (byId_id _ _ _ H) as <-.
  destruct (disturb_keeps_id meanwhile w _ _ H) as [g Hg].
  destruct (setInvalid_current _ _ _ unknown_reason Hg) as [Hs Hb].
  simpl. rewrite H. simpl. rewrite Hs. simpl.
  split; [reflexivity|]. split; [reflexivity|].
  eexists. split; [exact Hb|]. now split.
Qed.

(** ** The first two resumptions of a pass *)

Lemma pass_step_fetch i w :
  pass_step i processAllFeeds w =
  match directory w with
  | Rejected err =>
      (Returned [], w, [(Main, CFetch (Rejected err)); error_queuing err])
  | Fulfilled res =>
      if Nat.eqb (status res) 200
      then (Collecting (awaiting_all res), w, [(Main, CFetch (Fulfilled res))])
      else (Returned [], w, [(Main, CFetch (Fulfilled res))])
  end.
Proof.
  unfold processAllFeeds, collectFeeds. simpl.
  destruct (directory w) as [res|err]; simpl; [|reflexivity].
  destruct (Nat.eqb (status res) 200); reflexivity.
Qed.

Lemma pass_step_all i res w :
  pass_step i (Collecting (awaiting_all res)) w =
  ((join (processFeeds (all_feeds w res))).1, w,
   (Main, CAll (Fulfilled (store w)))
     :: (join (processFeeds (all_feeds w res))).2).
Proof.
  unfold awaiting_all. simpl. fold (all_feeds w res).
  destruct (join (processFeeds (all_feeds w res))). reflexivity.
Qed.

(** A pass whose fetch answered 200, past its first two resumptions. *)
Lemma pass_run_past_all i j sched w res :
  directory w = Fulfilled res ->
  status res = 200 ->
  pass_run (i :: j :: sched) processAllFeeds w =
  ((pass_run sched (join (processFeeds (all_feeds w res))).1 w).1.1,
   (pass_run sched (join (processFeeds (all_feeds w res))).1 w).1.2,
   ((Main, CFetch (Fulfilled res))
      :: (Main, CAll (Fulfilled (store w)))
      :: (join (processFeeds (all_feeds w res))).2)
     ++ (pass_run sched (join (processFeeds (all_feeds w res))).1 w).2).
Proof.
  intros Hd Hs.
  cbn [pass_run]. rewrite pass_step_fetch, Hd, Hs, Nat.eqb_refl.
  cbn [pass_run]. rewrite pass_step_all.
  destruct (pass_run sched (join (processFeeds (all_feeds w res))).1 w)
    as [[p w'] evs].
  reflexivity.
Qed.

(** ** A pass whose fetch fails *)

Lemma pass_run_nothing_left (sched : list nat) (w : World) :
  pass_run sched (Returned []) w = (Returned [], w, []).
Proof.
  induction sched as [|i sched IH]; simpl; [reflexivity|].
  now rewrite IH.
Qed.

(** C7. When the fetch of the directory throws or answers with a status
    other than 200, the pass, however it is scheduled, leaves the world as
    it found it, calls [addFeed] not once and starts no callback; the only
    calls it makes are the fetch itself and the logger. *)
Theorem failed_fetch_touches_nothing (w : World) (sched : list nat) :
  fetch_failed (directory w) ->
  let '(p, w', evs) := pass_run sched processAllFeeds w in
  w' = w
  /\ callbacks p = []
  /\ addFeed_ids evs = []
  /\ Forall (fun ev => match snd ev with
                       | CFetch _ | CLog _ _ _ _ => True
                       | _ => False
                       end) evs.
Proof.
  intros Hfail. destruct sched as [|i sched].
  - simpl. repeat split. constructor.
  - cbn [pass_run]. rewrite pass_step_fetch.
    destruct (directory w) as [res|err]; simpl in Hfail.
    + destruct (Nat.eqb (status res) 200) eqn:Hs.
      { apply Nat.eqb_eq in Hs. contradiction. }
      rewrite pass_run_nothing_left. simpl.
      repeat split. repeat constructor.
    + rewrite pass_run_nothing_left. simpl.
      repeat split. repeat constructor.
Qed.

Lemma failed_fetch_touches_nothing_witness :
  let '(p, w', evs) :=
    pass_run [0; 0; 1; 0] processAllFeeds
             (mkWorld [feed_a] (Fulfilled (mkResponse 503 []))) in
  w' = mkWorld [feed_a] (Fulfilled (mkResponse 503 []))
  /\ callbacks p = []
  /\ addFeed_ids evs = []
  /\ Forall (fun ev => match snd ev with
                       | CFetch _ | CLog _ _ _ _ => True
                       | _ => False
                       end) evs.
Proof.
  apply (failed_fetch_touches_nothing
           (mkWorld [feed_a] (Fulfilled (mkResponse 503 []))) [0; 0; 1; 0]).
  simpl. lia.
Defined.

(** ** The callbacks of [processFeeds] under any schedule *)

Lemma reached_step feed t h w :
  reached feed t h ->
  reached feed (step t w).1.1 (h ++ (step t w).2).
Proof.
  intros H. destruct H; cbn.
  - constructor.
  - destruct (byUrl (store w) (url d)) as [f|] eqn:E; cbn.
    + apply at_addFeed. now left.
    + apply at_create.
  - destruct (create (store w) d) as [[i|e] fs] eqn:E; cbn.
    + apply at_byId.
    + apply create_rejected in E as (-> & _ & _). apply at_duplicate.
  - destruct (byId (store w) id) as [f|] eqn:E; cbn.
    + apply at_addFeed. right. now exists id.
    + apply at_vanished.
  - now apply at_done.
  - rewrite app_nil_r. now apply at_done.
  - apply at_duplicate.
  - apply at_vanished.
Qed.

Lemma resolved_no_addFeed d h f c :
  resolved d h f -> In c h -> is_addFeed c = false.
Proof.
  intros [-> | [id ->]] Hin; simpl in Hin;
    repeat (destruct Hin as [<- | Hin]; [reflexivity|]); contradiction.
Qed.

(** A callback has called [addFeed] exactly when it is fulfilled, and then
    once. *)
Lemma reached_count feed t h :
  reached feed t h ->
  length (List.filter is_addFeed h) = b2n (fulfilled t).
Proof.
  assert (Hres : forall d h f, resolved d h f -> List.filter is_addFeed h = []).
  { intros d h0 f [-> | [id ->]]; reflexivity. }
  intros H. destruct H; try reflexivity.
  - now rewrite (Hres _ _ _ H).
  - rewrite List.filter_app, (Hres _ _ _ H). reflexivity.
Qed.

(** The call of [addFeed] by a callback is its last call; before it lie the
    calls of a completed [updateFeed], and the id passed is the id of the
    feed that [updateFeed] returned. *)
Lemma reached_addFeed_last feed t h pre x r post :
  reached feed t h ->
  h = pre ++ CAddFeed x r :: post ->
  exists d f, feed = Some d /\ resolved d pre f /\ x = feed_id f
              /\ r = Fulfilled tt /\ post = [] /\ t = Ret tt.
Proof.
  intros H E.
  assert (Hin : In (CAddFeed x r) h).
  { rewrite E. apply in_or_app. right. now left. }
  destruct H;
    try (simpl in Hin;
         repeat (destruct Hin as [Hin | Hin]; [discriminate|]);
         contradiction).
  - apply (resolved_no_addFeed _ _ _ _ H) in Hin. discriminate.
  - destruct post as [|z post _] using rev_ind.
    + apply app_inj_tail in E as [-> [= <- <-]].
      exists d, f. repeat split. exact H.
    + change (h ++ [CAddFeed (feed_id f) (Fulfilled tt)] =
              pre ++ (CAddFeed x r :: post) ++ [z]) in E.
      rewrite app_assoc in E. apply app_inj_tail in E as [-> _].
      assert (Hc : In (CAddFeed x r) (pre ++ CAddFeed x r :: post)).
      { apply in_or_app. right. now left. }
      apply (resolved_no_addFeed _ _ _ _ H) in Hc. discriminate.
Qed.

(** Every completed run of [updateFeed] alone has such a history. *)
Lemma run_updateFeed_resolved d w f w' h :
  run (updateFeed (Some d)) w = (Fulfilled (Some f), w', h) ->
  resolved d h f.
Proof.
  simpl. destruct (byUrl (store w) (url d)) as [g|] eqn:E; simpl.
  - intros [= <- <- <-]. now left.
  - destruct (create (store w) d) as [[i|e] fs] eqn:Ec; simpl.
    + match goal with
      | |- context [byId ?l i] => destruct (byId l i) as [g|] eqn:Ei
      end; simpl; intros [= <- <- <-]. right. now exists i.
    + discriminate.
Qed.

Section Events.
Implicit Types (evs : list Event) (cs : list Call).

Lemma calls_of_app i evs1 evs2 :
  calls_of i (evs1 ++ evs2) = calls_of i evs1 ++ calls_of i evs2.
Proof. apply omap_app. Qed.

Lemma calls_of_tag_same i cs : calls_of i (tag (Callback i) cs) = cs.
Proof.
  induction cs as [|c cs IH]; [reflexivity|].
  cbn. rewrite Nat.eqb_refl. cbn. f_equal. exact IH.
Qed.

Lemma calls_of_tag_other i j cs :
  i <> j -> calls_of j (tag (Callback i) cs) = [].
Proof.
  intros Hne. induction cs as [|c cs IH]; [reflexivity|].
  cbn. destruct (Nat.eqb i j) eqn:E.
  - apply Nat.eqb_eq in E. contradiction.
  - exact IH.
Qed.

Lemma addFeed_ids_app evs1 evs2 :
  addFeed_ids (evs1 ++ evs2) = addFeed_ids evs1 ++ addFeed_ids evs2.
Proof. apply omap_app. Qed.

Lemma addFeed_ids_tag a cs :
  length (addFeed_ids (tag a cs)) = length (List.filter is_addFeed cs).
Proof.
  induction cs as [|c cs IH]; [reflexivity|].
  destruct c; cbn; try exact IH. now rewrite <- IH.
Qed.

Lemma logged_error_app msg evs1 evs2 :
  logged_error msg (evs1 ++ evs2) =
  logged_error msg evs1 || logged_error msg evs2.
Proof. apply existsb_app. Qed.
End Events.

Lemma count_fulfilled_insert (cbs : list (Prog unit)) i t t' :
  cbs !! i = Some t ->
  count_fulfilled (<[i:=t']> cbs) + b2n (fulfilled t) =
  count_fulfilled cbs + b2n (fulfilled t').
Proof.
  unfold count_fulfilled.
  revert i. induction cbs as [|c cbs IH]; intros [|i] H; try discriminate.
  - injection H as ->. clear IH. cbn.
    destruct (fulfilled t), (fulfilled t'); cbn; lia.
  - simpl in H. apply IH in H. clear IH.
    set (x := b2n (fulfilled t)) in *. set (y := b2n (fulfilled t')) in *.
    simpl. destruct (fulfilled c); simpl; lia.
Qed.

Lemma count_fulfilled_all (cbs : list (Prog unit)) :
  forallb fulfilled cbs = true -> count_fulfilled cbs = length cbs.
Proof.
  unfold count_fulfilled. induction cbs as [|c cbs IH]; [reflexivity|].
  cbn. destruct (fulfilled c); [|discriminate]. cbn. intros H.
  now rewrite IH.
Qed.

Lemma step_fulfilled {A} (t : Prog A) w :
  fulfilled t = true -> step t w = (t, w, []).
Proof. destruct t; [reflexivity | discriminate | discriminate]. Qed.

Lemma forallb_lookup {A} (f : A -> bool) (l : list A) i x :
  forallb f l = true -> l !! i = Some x -> f x = true.
Proof.
  intros H Hi. rewrite forallb_forall in H. apply H.
  apply list_elem_of_In. eapply list_elem_of_lookup_2. exact Hi.
Qed.

Lemma join_callbacks cbs : callbacks (join cbs).1 = cbs.
Proof.
  unfold join. destruct (head (omap rejection cbs)); [reflexivity|].
  destruct (forallb fulfilled cbs); reflexivity.
Qed.

Lemma no_addFeed_ids evs : no_addFeed evs -> addFeed_ids evs = [].
Proof.
  induction 1 as [|[a c] evs Hc _ IH]; [reflexivity|].
  destruct c; try discriminate Hc; exact IH.
Qed.

Lemma join_events cbs i :
  calls_of i (join cbs).2 = [] /\ no_addFeed (join cbs).2.
Proof.
  unfold join. destruct (head (omap rejection cbs)).
  - split; [reflexivity | repeat constructor].
  - destruct (forallb fulfilled cbs); split; (reflexivity || constructor).
Qed.

Lemma callbacks_inv_step feeds cbs evs i t w evs2 :
  callbacks_inv feeds cbs evs ->
  cbs !! i = Some t ->
  (forall j, calls_of j evs2 = []) ->
  no_addFeed evs2 ->
  callbacks_inv feeds (<[i:=(step t w).1.1]> cbs)
                (evs ++ tag (Callback i) (step t w).2 ++ evs2).
Proof.
  intros (Hcb & Hcount & Hmain) Hi Hquiet Hnone.
  assert (Hlt : i < length cbs) by (eapply lookup_lt_Some; exact Hi).
  assert (Hfeed : exists feed, feeds !! i = Some feed
                               /\ reached feed t (calls_of i evs)).
  { specialize (Hcb i). destruct (feeds !! i) as [feed|].
    - destruct Hcb as (t0 & Ht0 & Hr). exists feed. split; [reflexivity|].
      congruence.
    - destruct Hcb. congruence. }
  destruct Hfeed as (feed & Hfeed & Hreach).
  pose proof (reached_step _ _ _ w Hreach) as Hreach'.
  split; [|split].
  - intros j. specialize (Hcb j).
    rewrite !calls_of_app, Hquiet, app_nil_r.
    destruct (decide (i = j)) as [<-|Hne].
    + rewrite Hfeed. exists (step t w).1.1. split.
      * now apply list_lookup_insert_eq.
      * now rewrite calls_of_tag_same.
    + rewrite (calls_of_tag_other _ _ _ Hne), app_nil_r.
      rewrite list_lookup_insert_ne by exact Hne. exact Hcb.
  - rewrite !addFeed_ids_app, (no_addFeed_ids _ Hnone), app_nil_r.
    rewrite length_app, addFeed_ids_tag.
    pose proof (count_fulfilled_insert _ _ _ (step t w).1.1 Hi) as Hins.
    pose proof (reached_count _ _ _ Hreach) as Hc.
    pose proof (reached_count _ _ _ Hreach') as Hc'.
    rewrite List.filter_app, length_app in Hc'.
    lia.
  - rewrite !Forall_app. split; [exact Hmain|]. split.
    + unfold tag. apply Forall_fmap, Forall_forall. intros c _. discriminate.
    + eapply Forall_impl; [exact Hnone|]. intros ev Hev _. exact Hev.
Qed.

Lemma logged_error_queuing err :
  logged_error "Error queuing feeds"%string [error_queuing err] = true.
Proof. reflexivity. Qed.

(** One resumption of a callback keeps the invariant of the pass. *)
Lemma pass_inv_step feeds p evs i w :
  pass_inv feeds p evs ->
  pass_inv feeds (pass_step i p w).1.1 (evs ++ (pass_step i p w).2).
Proof.
  intros [Hcbs Hset]. destruct p as [c|cbs|cbs]; [contradiction| |]; simpl.
  - destruct (cbs !! i) as [t|] eqn:Hi.
    + destruct (step t w) as [[t' w'] cs] eqn:Hst.
      pose proof (callbacks_inv_step _ _ _ _ _ w (join (<[i:=t']> cbs)).2
                    Hcbs Hi) as Hstep.
      rewrite Hst in Hstep. simpl in Hstep.
      specialize (Hstep (fun j => proj1 (join_events _ j))
                        (proj2 (join_events _ 0))).
      pose proof (join_callbacks (<[i:=t']> cbs)) as Hjc.
      destruct (join (<[i:=t']> cbs)) as [p' evs2] eqn:Hj. simpl in *.
      split; [now rewrite Hjc|].
      unfold join in Hj.
      destruct (head (omap rejection (<[i:=t']> cbs))) as [err|] eqn:Hrej.
      * injection Hj as <- <-. left.
        rewrite !logged_error_app, logged_error_queuing.
        now rewrite !orb_true_r.
      * destruct (forallb fulfilled (<[i:=t']> cbs)) eqn:Hall;
          injection Hj as <- <-; [now right | now split].
    + simpl. rewrite app_nil_r. now split.
  - destruct (cbs !! i) as [t|] eqn:Hi.
    + destruct (step t w) as [[t' w'] cs] eqn:Hst.
      pose proof (callbacks_inv_step _ _ _ _ _ w [] Hcbs Hi) as Hstep.
      rewrite Hst in Hstep. simpl in Hstep. rewrite app_nil_r in Hstep.
      simpl. split; [apply Hstep; [reflexivity | constructor]|].
      destruct Hset as [Hlog | Hall].
      * left. now rewrite logged_error_app, Hlog.
      * right.
        pose proof (forallb_lookup _ _ _ _ Hall Hi) as Hft.
        rewrite (step_fulfilled _ w Hft) in Hst. injection Hst as <- _ _.
        now rewrite list_insert_id.
    + simpl. rewrite app_nil_r. now split.
Qed.

(** And so does any schedule. *)
Lemma pass_inv_run feeds sched p evs w :
  pass_inv feeds p evs ->
  pass_inv feeds (pass_run sched p w).1.1 (evs ++ (pass_run sched p w).2).
Proof.
  revert p evs w. induction sched as [|i sched IH]; intros p evs w H; simpl.
  - now rewrite app_nil_r.
  - pose proof (pass_inv_step _ _ _ i w H) as H1.
    destruct (pass_step i p w) as [[p1 w1] evs1]. simpl in H1.
    pose proof (IH _ _ w1 H1) as H2.
    destruct (pass_run sched p1 w1) as [[p2 w2] evs2]. simpl in *.
    now rewrite app_assoc.
Qed.

Lemma processFeed_pending feed : fulfilled (processFeed feed) = false.
Proof. destruct feed; reflexivity. Qed.

Lemma count_fulfilled_processFeeds feeds :
  count_fulfilled (processFeeds feeds) = 0.
Proof.
  unfold count_fulfilled, processFeeds.
  induction feeds as [|feed feeds IH]; [reflexivity|].
  simpl. now rewrite processFeed_pending.
Qed.

(** The invariant holds when [processFeeds(feeds)] has just been called. *)
Lemma pass_inv_join feeds evs0 :
  (forall j, calls_of j evs0 = []) ->
  no_addFeed evs0 ->
  pass_inv feeds (join (processFeeds feeds)).1
           (evs0 ++ (join (processFeeds feeds)).2).
Proof.
  intros Hquiet Hnone. split; [split; [|split]|].
  - intros i. rewrite join_callbacks, calls_of_app, Hquiet.
    rewrite (proj1 (join_events _ i)). simpl.
    unfold processFeeds. rewrite list_lookup_fmap.
    destruct (feeds !! i) as [[d|]|]; simpl.
    + eexists. split; [reflexivity | apply at_byUrl].
    + eexists. split; [reflexivity | apply at_null].
    + now split.
  - rewrite join_callbacks, addFeed_ids_app, (no_addFeed_ids _ Hnone).
    rewrite (no_addFeed_ids _ (proj2 (join_events _ 0))).
    now rewrite count_fulfilled_processFeeds.
  - apply Forall_app. split.
    + eapply Forall_impl; [exact Hnone|]. intros ev Hev _. exact Hev.
    + eapply Forall_impl; [exact (proj2 (join_events _ 0))|].
      intros ev Hev _. exact Hev.
  - unfold join.
    destruct (head (omap rejection (processFeeds feeds))) as [err|] eqn:Hrej.
    + simpl. left. rewrite logged_error_app, logged_error_queuing.
      now rewrite orb_true_r.
    + destruct (forallb fulfilled (processFeeds feeds)) eqn:Hall; simpl;
        [now right | now split].
Qed.

(** [processFeeds] awaited on its own. *)
Lemma processFeeds_run_inv sched feeds w :
  pass_inv feeds (processFeeds_run sched feeds w).1.1
           (processFeeds_run sched feeds w).2.
Proof.
  unfold processFeeds_run.
  pose proof (pass_inv_join feeds [] (fun _ => eq_refl) ltac:(constructor)) as H0.
  destruct (join (processFeeds feeds)) as [p evs0]. simpl in H0.
  pose proof (pass_inv_run _ sched _ _ w H0) as H1.
  destruct (pass_run sched p w) as [[p' w'] evs]. exact H1.
Qed.

(** A whole pass: as long as it has callbacks, the directory answered 200
    and the invariant holds for the array of line 74. *)
Lemma processAllFeeds_inv sched w :
  callbacks (pass_run sched processAllFeeds w).1.1 = []
  \/ exists res,
      directory w = Fulfilled res
      /\ status res = 200
      /\ pass_inv (all_feeds w res) (pass_run sched processAllFeeds w).1.1
                  (pass_run sched processAllFeeds w).2.
Proof.
  destruct sched as [|i sched]; [now left|].
  cbn [pass_run]. rewrite pass_step_fetch.
  destruct (directory w) as [res|err].
  - destruct (Nat.eqb (status res) 200) eqn:Hs.
    + destruct sched as [|j sched]; [now left|].
      right. exists res. apply Nat.eqb_eq in Hs.
      split; [reflexivity|]. split; [exact Hs|].
      cbn [pass_run]. rewrite pass_step_all.
      pose proof (pass_inv_join (all_feeds w res)
                    [(Main, CFetch (Fulfilled res));
                     (Main, CAll (Fulfilled (store w)))]
                    (fun _ => eq_refl) ltac:(repeat constructor)) as H0.
      destruct (join (processFeeds (all_feeds w res))) as [p evs0].
      simpl in H0 |- *.
      pose proof (pass_inv_run _ sched _ _ w H0) as H1.
      destruct (pass_run sched p w) as [[p' w'] evs]. exact H1.
    + left. now rewrite pass_run_nothing_left.
  - left. now rewrite pass_run_nothing_left.
Qed.

(** ** Flattening the directory response *)

Lemma userFeeds_cons st user users :
  userFeeds (mkResponse st (user :: users)) =
  (if negb (isFlagged user) then map Some (feeds user) else [None])
    ++ userFeeds (mkResponse st users).
Proof.
  unfold userFeeds, flatMap. simpl.
  destruct (negb (isFlagged user)); reflexivity.
Qed.

Lemma discovered_cons st user users :
  discovered (mkResponse st (user :: users)) =
  (if negb (isFlagged user) then feeds user else [])
    ++ discovered (mkResponse st users).
Proof.
  unfold discovered. simpl. destruct (negb (isFlagged user)); reflexivity.
Qed.

Lemma omap_id_Some {A} (l : list A) : omap id (map Some l) = l.
Proof.
  induction l as [|x l IH]; [reflexivity|].
  change (x :: omap id (map Some l) = x :: l). now f_equal.
Qed.

(** The entries of [userFeeds] that are not [null] are the feeds of the
    users that are not flagged, in their order. *)
Lemma userFeeds_not_null res : omap id (userFeeds res) = discovered res.
Proof.
  destruct res as [st users]. induction users as [|user users IH].
  - reflexivity.
  - rewrite userFeeds_cons, discovered_cons, omap_app, IH.
    destruct (negb (isFlagged user)); [now rewrite omap_id_Some | reflexivity].
Qed.

(** Every flagged user leaves one [null] in [userFeeds]. *)
Lemma userFeeds_length res :
  length (userFeeds res) =
  length (discovered res) + length (List.filter isFlagged (body res)).
Proof.
  destruct res as [st users]. induction users as [|user users IH].
  - reflexivity.
  - rewrite userFeeds_cons, discovered_cons, !length_app, IH. simpl.
    destruct (isFlagged user); simpl; rewrite ?length_map; lia.
Qed.

Lemma omap_id_length {A} (l : list (option A)) :
  Forall is_Some l -> length (omap id l) = length l.
Proof.
  induction 1 as [|x l [a ->] _ IH]; [reflexivity|].
  change (S (length (omap id l)) = S (length l)). now f_equal.
Qed.

(** ** Counting the calls of [addFeed] *)

Lemma callbacks_inv_length feeds cbs evs :
  callbacks_inv feeds cbs evs -> length cbs = length feeds.
Proof.
  intros [Hcb _]. apply Nat.le_antisymm.
  - destruct (Nat.le_gt_cases (length cbs) (length feeds)) as [|Hlt];
      [assumption|].
    specialize (Hcb (length feeds)).
    rewrite (lookup_ge_None_2 feeds (length feeds)) in Hcb by lia.
    destruct Hcb as [Hcb _]. apply lookup_ge_None_1 in Hcb. lia.
  - destruct (Nat.le_gt_cases (length feeds) (length cbs)) as [|Hlt];
      [assumption|].
    specialize (Hcb (length cbs)).
    destruct (lookup_lt_is_Some_2 feeds (length cbs) Hlt) as [feed Hf].
    rewrite Hf in Hcb. destruct Hcb as (t & Ht & _).
    apply lookup_lt_Some in Ht. lia.
Qed.

Lemma reached_null t h : reached None t h -> t = Throw TypeError /\ h = [].
Proof. intros H. inversion H. now split. Qed.

(** When all callbacks are fulfilled, no element was [null]. *)
Lemma fulfilled_not_null feeds cbs evs :
  callbacks_inv feeds cbs evs ->
  forallb fulfilled cbs = true ->
  Forall is_Some feeds.
Proof.
  intros [Hcb _] Hall. apply Forall_lookup. intros i feed Hi.
  specialize (Hcb i). rewrite Hi in Hcb. destruct Hcb as (t & Ht & Hr).
  destruct feed as [d|]; [now exists d|].
  apply reached_null in Hr as [-> _].
  apply (forallb_lookup _ _ _ _ Hall) in Ht. discriminate.
Qed.

(** A pass whose fetch answered 200, once [processFeeds] was called. *)
Lemma pass_inv_past_all i j sched w res :
  directory w = Fulfilled res ->
  status res = 200 ->
  pass_inv (all_feeds w res)
           (pass_run (i :: j :: sched) processAllFeeds w).1.1
           (pass_run (i :: j :: sched) processAllFeeds w).2.
Proof.
  intros Hd Hs. rewrite (pass_run_past_all _ _ _ _ _ Hd Hs).
  pose proof (pass_inv_join (all_feeds w res)
                [(Main, CFetch (Fulfilled res));
                 (Main, CAll (Fulfilled (store w)))]
                (fun _ => eq_refl) ltac:(repeat constructor)) as H0.
  exact (pass_inv_run _ sched _ _ w H0).
Qed.

Lemma processAllFeeds_ok sched w res :
  directory w = Fulfilled res ->
  status res = 200 ->
  (collecting (pass_run sched processAllFeeds w).1.1 = true
   /\ forall i, calls_of i (pass_run sched processAllFeeds w).2 = [])
  \/ pass_inv (all_feeds w res) (pass_run sched processAllFeeds w).1.1
              (pass_run sched processAllFeeds w).2.
Proof.
  intros Hd Hs.
  destruct sched as [|i sched]; [now left|].
  destruct sched as [|j sched].
  { left. cbn [pass_run]. rewrite pass_step_fetch, Hd, Hs, Nat.eqb_refl.
    now split. }
  right. now apply pass_inv_past_all.
Qed.

(** C1, as the code has it.  In a pass whose fetch answered 200 and whose
    callbacks were all fulfilled, [addFeed] was called once per element of
    the array [[...all, ...userFeeds]]: as many times as there are
    persisted feeds plus sources listed by the directory, a source that is
    already persisted being counted in both. *)
Theorem one_addFeed_per_element (w : World) (res : Response)
  (sched : list nat) :
  directory w = Fulfilled res ->
  status res = 200 ->
  let '(p, w', evs) := pass_run sched processAllFeeds w in
  succeeded p = true ->
  length (addFeed_ids evs) = length (store w) + length (discovered res).
Proof.
  intros Hd Hs.
  pose proof (processAllFeeds_ok sched w res Hd Hs) as H.
  destruct (pass_run sched processAllFeeds w) as [[p w'] evs]. simpl in H.
  intros Hok. destruct p as [c|cbs|cbs]; try discriminate.
  destruct H as [[H _]|[Hcbs _]]; [discriminate|]. simpl in Hok, Hcbs.
  pose proof (callbacks_inv_length _ _ _ Hcbs) as Hlen.
  pose proof (fulfilled_not_null _ _ _ Hcbs Hok) as Hsome.
  destruct Hcbs as (_ & Hcount & _).
  rewrite Hcount, (count_fulfilled_all _ Hok), Hlen.
  unfold all_feeds in Hsome |- *. apply Forall_app in Hsome as [_ Hsome].
  rewrite length_app, length_map.
  now rewrite <- (omap_id_length _ Hsome), userFeeds_not_null.
Qed.

Lemma one_addFeed_per_element_witness :
  length (addFeed_ids (pass_run [0; 0; 0; 1; 0; 1] processAllFeeds rediscovered).2)
  = length (store rediscovered)
    + length (discovered (mkResponse 200 [mkUser false [source_a]])).
Proof.
  exact (one_addFeed_per_element
           rediscovered (mkResponse 200 [mkUser false [source_a]])
           [0; 0; 0; 1; 0; 1] eq_refl eq_refl eq_refl).
Defined.

(** C1, as stated, fails: the persisted feed of [rediscovered] is listed
    by the directory again.  The fetch settles, [Feed.all()] settles, then
    the callbacks of the persisted feed (0) and of the source (1) are
    resumed in turn: each finds the feed by its URL and enqueues it.  The
    pass succeeds with two calls of [addFeed], both for the id 1, the only
    id there is. *)
Lemma full_enqueue_counterexample :
  ~ full_enqueue_claim rediscovered [0; 0; 0; 1; 0; 1].
Proof.
  unfold full_enqueue_claim. vm_compute. intros H.
  specialize (H eq_refl). discriminate H.
Qed.

Example rediscovered_enqueued_twice :
  let '(p, w', evs) := pass_run [0; 0; 0; 1; 0; 1] processAllFeeds rediscovered in
  succeeded p = true
  /\ addFeed_ids evs = [1; 1]
  /\ map feed_id (store w') = [1].
Proof. vm_compute. repeat split. Qed.

(** C2, on the code: for the flagged user the callback of [flatMap]
    returns [null], which [flatMap] keeps as an element.  With one flagged
    user (one feed) and one unflagged user (two feeds) the array has three
    entries, not two; the callback of [processFeeds] for the [null] entry
    is rejected with a TypeError before any call, and the pass ends in its
    [catch] as soon as [processFeeds] is called.  The two sources of the
    unflagged user are reconciled and enqueued all the same, by callbacks
    that outlive the pass; the feed of the flagged user reaches neither the
    store nor the queue. *)
Theorem flagged_user_leaves_null :
  userFeeds with_flagged = [None; Some source_a; Some source_b]
  /\ (let '(p, w', evs) :=
        pass_run [0; 0] processAllFeeds (mkWorld [] (Fulfilled with_flagged)) in
      returned p = true
      /\ map rejection (callbacks p) = [Some TypeError; None; None]
      /\ evs = [(Main, CFetch (Fulfilled with_flagged));
                (Main, CAll (Fulfilled []));
                error_queuing TypeError])
  /\ (let '(p, w', evs) :=
        pass_run [0; 0; 0; 1; 2; 1; 2; 1; 2; 1; 2] processAllFeeds
                 (mkWorld [] (Fulfilled with_flagged)) in
      map rejection (callbacks p) = [Some TypeError; None; None]
      /\ map fulfilled (callbacks p) = [false; true; true]
      /\ logged_error "Error queuing feeds"%string evs = true
      /\ addFeed_ids evs = [1; 2]
      /\ map feed_url (store w') = [url_a; url_b]).
Proof. vm_compute. repeat split. Qed.

(** ** A rejected callback *)

Lemma rejection_head (cbs : list (Prog unit)) i t :
  head (omap rejection cbs) = None ->
  cbs !! i = Some t ->
  rejection t = None.
Proof.
  revert i. induction cbs as [|c cbs IH]; intros i H Hi; [discriminate|].
  change (omap rejection (c :: cbs))
    with (match rejection c with
          | Some e => e :: omap rejection cbs
          | None => omap rejection cbs
          end) in H.
  destruct i as [|i]; simpl in Hi.
  - injection Hi as ->. destruct (rejection t); [discriminate | reflexivity].
  - destruct (rejection c); [discriminate|]. now apply (IH i).
Qed.

(** The ways a callback ends rejected. *)
Lemma reached_rejected feed t h e :
  reached feed t h ->
  t = Throw e ->
  (feed = None /\ e = TypeError /\ h = [])
  \/ (exists d, feed = Some d /\ e = DuplicateUrl
                /\ h = [CByUrl (url d) (Fulfilled None);
                        CCreate d (Rejected DuplicateUrl)])
  \/ (exists d id, feed = Some d /\ e = TypeError
                   /\ h = [CByUrl (url d) (Fulfilled None);
                           CCreate d (Fulfilled id);
                           CById id (Fulfilled None)]).
Proof.
  intros H E. destruct H; try discriminate E; injection E as <-.
  - now left.
  - right. left. now exists d.
  - right. right. now exists d, id.
Qed.

(** C5, as stated, fails.  In [listed_twice] the fetch settles,
    [Feed.all()] settles, and both callbacks look the URL up before either
    creates it (0, 1); the create of callback 0 succeeds, the create of
    callback 1 is rejected with [DuplicateUrl]: its source is never
    enqueued, and the pass logs 'Error queuing feeds'.  Callback 0 goes on
    to read its feed and to enqueue it. *)
Lemma duplicate_tolerated_counterexample :
  ~ duplicate_tolerated_claim listed_twice [0; 0; 0; 1; 0; 1; 0; 0].
Proof.
  unfold duplicate_tolerated_claim. intros H.
  destruct (pass_run [0; 0; 0; 1; 0; 1; 0; 0] processAllFeeds listed_twice)
    as [[p w'] evs] eqn:E.
  vm_compute in E. injection E as <- <- <-.
  destruct (H 1 (mkFeedData url_b "Robert"%string)) as [Hlog _].
  - simpl. tauto.
  - discriminate Hlog.
Qed.

(** C8, as stated, fails.  In [listed_twice] both callbacks look the URL
    up before either creates it, and both lookups find nothing.  Callback 0
    creates the feed; the create of callback 1 is then rejected, and
    callback 1 ends with these two calls: it has created nothing and read
    nothing back. *)
Lemma creates_then_rereads_counterexample :
  ~ creates_then_rereads_claim listed_twice [0; 0; 0; 1; 0; 1; 0; 0].
Proof.
  unfold creates_then_rereads_claim. intros H.
  destruct (pass_run [0; 0; 0; 1; 0; 1; 0; 0] processAllFeeds listed_twice)
    as [[p w'] evs] eqn:E.
  vm_compute in E. injection E as <- <- <-.
  destruct (H 1 (Throw DuplicateUrl) url_b eq_refl eq_refl)
    as (d & id & f & Hcreate & _).
  - vm_compute. tauto.
  - vm_compute in Hcreate.
    destruct Hcreate as [Hc | [Hc | []]]; discriminate Hc.
Qed.

Example listed_twice_enqueued_once :
  let '(p, w', evs) :=
    pass_run [0; 0; 0; 1; 0; 1; 0; 0] processAllFeeds listed_twice in
  map rejection (callbacks p) = [None; Some DuplicateUrl]
  /\ addFeed_ids evs = [1]
  /\ map feed_author (store w') = ["Bob"%string].
Proof. vm_compute. repeat split. Qed.

(** ** The calls of [addFeed] *)

Lemma calls_of_cons_same i c evs :
  calls_of i ((Callback i, c) :: evs) = c :: calls_of i evs.
Proof.
  change ((Callback i, c) :: evs) with (tag (Callback i) [c] ++ evs).
  now rewrite calls_of_app, calls_of_tag_same.
Qed.

(** C10.  [processFeeds] called with any array, under any schedule: every
    call of [addFeed] is made by the callback of an element [i] that is
    not [null]; the calls this callback made before are those of a
    completed [updateFeed] for that element, which returned a feed [f];
    and the job passed holds the id of [f] and nothing else. *)
Theorem addFeed_only_after_updateFeed (feeds : list (option FeedData))
  (w : World) (sched : list nat) :
  let '(p, w', evs) := processFeeds_run sched feeds w in
  forall pre a x r post,
    evs = pre ++ (a, CAddFeed x r) :: post ->
    exists i d f,
      a = Callback i
      /\ feeds !! i = Some (Some d)
      /\ resolved d (calls_of i pre) f
      /\ x = feed_id f.
Proof.
  pose proof (processFeeds_run_inv sched feeds w) as H.
  destruct (processFeeds_run sched feeds w) as [[p w'] evs]. simpl in H.
  intros pre a x r post ->.
  destruct H as [(Hcb & _ & Hmain) _].
  destruct a as [|i].
  { rewrite Forall_app, Forall_cons in Hmain.
    destruct Hmain as (_ & Hm & _). specialize (Hm eq_refl). discriminate. }
  specialize (Hcb i).
  rewrite calls_of_app, calls_of_cons_same in Hcb.
  destruct (feeds !! i) as [feed|] eqn:Hf.
  - destruct Hcb as (t & _ & Hr).
    destruct (reached_addFeed_last _ _ _ _ _ _ _ Hr eq_refl)
      as (d & f & -> & Hres & -> & _).
    exists i, d, f. repeat split; assumption.
  - destruct Hcb as [_ Hcb]. symmetry in Hcb.
    now apply app_cons_not_nil in Hcb.
Qed.

Lemma addFeed_only_after_updateFeed_witness :
  exists i d f,
    Callback 1 = Callback i
    /\ [Some source_a; Some source_b] !! i = Some (Some d)
    /\ resolved d
         (calls_of i
            [(Callback 0, CByUrl url_a (Fulfilled (Some feed_a)));
             (Callback 1, CByUrl url_b (Fulfilled None));
             (Callback 1, CCreate source_b (Fulfilled 2));
             (Callback 0, CAddFeed 1 (Fulfilled tt));
             (Callback 1,
              CById 2 (Fulfilled
                         (Some (mkFeed 2 url_b "Bob"%string None true None))))])
         f
    /\ 2 = feed_id f.
Proof.
  exact (addFeed_only_after_updateFeed
           [Some source_a; Some source_b] (mkWorld [feed_a] (ok []))
           [0; 1; 1; 0; 1; 1]
           [(Callback 0, CByUrl url_a (Fulfilled (Some feed_a)));
            (Callback 1, CByUrl url_b (Fulfilled None));
            (Callback 1, CCreate source_b (Fulfilled 2));
            (Callback 0, CAddFeed 1 (Fulfilled tt));
            (Callback 1,
             CById 2 (Fulfilled
                        (Some (mkFeed 2 url_b "Bob"%string None true None))))]
           (Callback 1) 2 (Fulfilled tt) [] eq_refl).
Defined.

(** ** Triggers of a pass *)

(** C9, as the code has it.  Nothing guards [loadFeedsIntoQueue]: the call
    of [startParserQueue] and every 'drained' event start a further call of
    [processAllFeeds], whatever is in flight, which then runs along with
    the passes already there. *)
Theorem every_trigger_starts_a_pass (s : System) :
  (in_flight (react StartParserQueue s) = S (in_flight s)
   /\ passes (react StartParserQueue s) = passes s ++ [processAllFeeds])
  /\ (in_flight (react Drained s) = S (in_flight s)
      /\ passes (react Drained s) = passes s ++ [processAllFeeds]).
Proof.
  unfold in_flight. simpl.
  rewrite List.filter_app, length_app. simpl.
  repeat split; lia.
Qed.

(** C9, as stated, fails: 'drained' arriving while the pass started by
    [startParserQueue] still awaits its fetch starts a second pass. *)
Lemma single_flight_counterexample :
  ~ single_flight_claim rediscovered [StartParserQueue; Drained].
Proof.
  unfold single_flight_claim. vm_compute. lia.
Qed.

(** The two passes then proceed in turn, their calls interleaved. *)
Example two_passes_interleaved :
  let s := exec [StartParserQueue; Drained;
                 ResumePass 0 0; ResumePass 1 0; ResumePass 0 0;
                 ResumePass 1 0; ResumePass 0 0; ResumePass 1 0]
                (loaded rediscovered) in
  in_flight s = 2
  /\ map fst (journal s) =
     [OfModule; OfModule;
      OfPass 0 Main; OfPass 1 Main; OfPass 0 Main; OfPass 1 Main;
      OfPass 0 (Callback 0); OfPass 1 (Callback 0)].
Proof. vm_compute. split; reflexivity. Qed.

(** ** What reaches the store and the queue *)

Lemma reached_about feed t h c :
  reached feed t h ->
  In c h ->
  exists d, feed = Some d /\ about d c.
Proof.
  assert (Hres : forall d h f, resolved d h f -> In c h -> about d c).
  { intros d h0 f [-> | [id ->]] Hin; simpl in Hin;
      repeat (destruct Hin as [<- | Hin]; [now simpl|]); contradiction. }
  intros H Hin.
  destruct H; try (apply in_app_or in Hin as [Hin|Hin]);
    try (exists d; split; [reflexivity|]);
    try (now apply (Hres _ _ _ H));
    simpl in Hin;
    repeat (destruct Hin as [<- | Hin]; [now simpl|]); contradiction.
Qed.

Lemma calls_of_In i c evs : In (Callback i, c) evs -> In c (calls_of i evs).
Proof.
  induction evs as [|ev evs IH]; [contradiction|].
  intros [-> | Hin].
  - rewrite calls_of_cons_same. now left.
  - change (ev :: evs) with ([ev] ++ evs). rewrite calls_of_app.
    apply in_or_app. right. now apply IH.
Qed.

(** X16. Under any schedule, every call a callback of the pass makes is
    made for an element of the array that is feed data, either of a
    persisted feed or of a source listed by a user that is not flagged: the
    store is asked for no other URL, and creates from no other data.  A
    source that only flagged users list is processed only if it is
    persisted already, when [Feed.all()] hands it to [processFeeds]
    whoever lists it. *)
Lemma calls_only_for_persisted_or_unflagged (w : World) (res : Response)
  (sched : list nat) :
  directory w = Fulfilled res ->
  status res = 200 ->
  let '(p, w', evs) := pass_run sched processAllFeeds w in
  forall i c,
    In (Callback i, c) evs ->
    exists d,
      all_feeds w res !! i = Some (Some d)
      /\ about d c
      /\ (In d (map feedData_of (store w)) \/ In d (discovered res)).
Proof.
  intros Hd Hs.
  pose proof (processAllFeeds_ok sched w res Hd Hs) as H.
  destruct (pass_run sched processAllFeeds w) as [[p w'] evs]. simpl in H.
  intros i c Hin. apply calls_of_In in Hin.
  destruct H as [[_ H] | [(Hcb & _) _]].
  { rewrite H in Hin. contradiction. }
  specialize (Hcb i).
  destruct (all_feeds w res !! i) as [feed|] eqn:Hf.
  - destruct Hcb as (t & _ & Hr).
    destruct (reached_about _ _ _ _ Hr Hin) as (d & -> & Habout).
    exists d. split; [reflexivity|]. split; [exact Habout|].
    apply list_elem_of_lookup_2, list_elem_of_In in Hf.
    unfold all_feeds in Hf. apply in_app_or in Hf as [Hf|Hf].
    + left. apply in_map_iff in Hf as (f & [= <-] & Hf).
      now apply in_map.
    + right. rewrite <- userFeeds_not_null.
      apply list_elem_of_In, list_elem_of_omap. exists (Some d).
      split; [now apply list_elem_of_In | reflexivity].
  - destruct Hcb as [_ Hcb]. rewrite Hcb in Hin. contradiction.
Qed.

(** ** Every callback settles *)

Lemma step_settled {A} (t : Prog A) w :
  settled t = true -> step t w = (t, w, []).
Proof. destruct t; [reflexivity | reflexivity | discriminate]. Qed.

Lemma step_unsettled {A} (t : Prog A) w :
  settled t = false -> length (step t w).2 = 1.
Proof.
  destruct t as [a|e|B op k]; [discriminate | discriminate|].
  intros _. simpl. now destruct (perform op w).
Qed.

(** A callback not yet settled has made three calls at most. *)
Lemma reached_unsettled feed t h :
  reached feed t h -> settled t = false -> length h <= 3.
Proof.
  intros H. destruct H; try discriminate; intros _; simpl; try lia.
  destruct H as [-> | [id ->]]; simpl; lia.
Qed.

Lemma join_not_collecting cbs : collecting (join cbs).1 = false.
Proof.
  unfold join. destruct (head (omap rejection cbs)); [reflexivity|].
  destruct (forallb fulfilled cbs); reflexivity.
Qed.

(** What one resumption changes: the callback resumed, by its own calls. *)
Lemma pass_step_callbacks i p w :
  collecting p = false ->
  collecting (pass_step i p w).1.1 = false
  /\ callbacks (pass_step i p w).1.1 =
     match callbacks p !! i with
     | Some t => <[i:=(step t w).1.1]> (callbacks p)
     | None => callbacks p
     end
  /\ forall j,
      calls_of j (pass_step i p w).2 =
      match callbacks p !! i with
      | Some t => if decide (i = j) then (step t w).2 else []
      | None => []
      end.
Proof.
  intros Hc. destruct p as [c|cbs|cbs]; [discriminate| |]; simpl.
  - destruct (cbs !! i) as [t|]; [|now repeat split].
    destruct (step t w) as [[t' w'] cs]. simpl.
    pose proof (join_not_collecting (<[i:=t']> cbs)) as H1.
    pose proof (join_callbacks (<[i:=t']> cbs)) as H2.
    pose proof (fun j => proj1 (join_events (<[i:=t']> cbs) j)) as H3.
    destruct (join (<[i:=t']> cbs)) as [p' evs2]. simpl in *.
    split; [exact H1|]. split; [exact H2|].
    intros j. rewrite calls_of_app, H3, app_nil_r.
    destruct (decide (i = j)) as [<-|Hne].
    + apply calls_of_tag_same.
    + now apply calls_of_tag_other.
  - destruct (cbs !! i) as [t|]; [|now repeat split].
    destruct (step t w) as [[t' w'] cs]. simpl.
    split; [reflexivity|]. split; [reflexivity|].
    intros j. destruct (decide (i = j)) as [<-|Hne].
    + apply calls_of_tag_same.
    + now apply calls_of_tag_other.
Qed.

Local Arguments Nat.min : simpl never.

(** A resumption of callback [i] takes it one call further, unless it has
    settled; the other callbacks stay where they are. *)
Lemma pass_step_progress i j p evs w :
  collecting p = false ->
  Nat.min 4 (progress j p evs + (if decide (i = j) then 1 else 0))
  <= progress j (pass_step i p w).1.1 (evs ++ (pass_step i p w).2).
Proof.
  intros Hc.
  destruct (pass_step_callbacks i p w Hc) as (_ & Hcbs & Hcalls).
  unfold progress. rewrite Hcbs, calls_of_app, Hcalls, length_app.
  clear Hcbs Hcalls.
  destruct (callbacks p !! i) as [t|] eqn:Hi.
  - destruct (decide (i = j)) as [<-|Hne].
    + rewrite Hi.
      rewrite list_lookup_insert_eq by (eapply lookup_lt_Some; exact Hi).
      destruct (settled t) eqn:Hs.
      * rewrite (step_settled _ w Hs). simpl. rewrite Hs. lia.
      * rewrite (step_unsettled _ w Hs).
        destruct (settled (step t w).1.1); lia.
    + rewrite list_lookup_insert_ne by exact Hne.
      destruct (callbacks p !! j) as [u|]; [|lia].
      destruct (settled u); cbn [length]; lia.
  - destruct (decide (i = j)) as [<-|Hne].
    + rewrite Hi. lia.
    + destruct (callbacks p !! j) as [u|]; [|lia].
      destruct (settled u); cbn [length]; lia.
Qed.

Lemma pass_run_progress sched j p evs w :
  collecting p = false ->
  Nat.min 4 (progress j p evs + count_occ Nat.eq_dec sched j)
  <= progress j (pass_run sched p w).1.1 (evs ++ (pass_run sched p w).2).
Proof.
  revert p evs w. induction sched as [|i sched IH]; intros p evs w Hc.
  - simpl. rewrite app_nil_r. lia.
  - pose proof (pass_step_progress i j p evs w Hc) as H1.
    destruct (pass_step_callbacks i p w Hc) as (Hc1 & _ & _).
    cbn [pass_run].
    destruct (pass_step i p w) as [[p1 w1] evs1]. simpl in H1, Hc1.
    pose proof (IH p1 (evs ++ evs1) w1 Hc1) as H2.
    destruct (pass_run sched p1 w1) as [[p2 w2] evs2]. simpl in H2 |- *.
    rewrite app_assoc.
    cbn [count_occ].
    destruct (Nat.eq_dec i j) as [->|Hne].
    + destruct (decide (j = j)) as [_|]; [lia | contradiction].
    + destruct (decide (i = j)) as [|_]; [contradiction | lia].
Qed.

(** X15. A pass whose fetch answered 200, resumed twice (the fetch settles,
    [Feed.all()] settles) and then under any schedule that resumes each
    callback four times or more: [processAllFeeds] has returned and every
    callback has settled, fulfilled or rejected. *)
Lemma pass_settles (w : World) (res : Response) (sched : list nat) :
  directory w = Fulfilled res ->
  status res = 200 ->
  (forall j, j < length (all_feeds w res) ->
             4 <= count_occ Nat.eq_dec sched j) ->
  let '(p, w', evs) := pass_run (0 :: 0 :: sched) processAllFeeds w in
  returned p = true
  /\ length (callbacks p) = length (all_feeds w res)
  /\ forallb settled (callbacks p) = true.
Proof.
  intros Hd Hs Hfair.
  pose proof (pass_inv_past_all 0 0 sched w res Hd Hs) as Hinv.
  pose proof (fun j => pass_run_progress sched j
                         (join (processFeeds (all_feeds w res))).1
                         ((Main, CFetch (Fulfilled res))
                            :: (Main, CAll (Fulfilled (store w)))
                            :: (join (processFeeds (all_feeds w res))).2)
                         w (join_not_collecting _)) as Hprog.
  rewrite (pass_run_past_all _ _ _ _ _ Hd Hs) in Hinv |- *.
  destruct (pass_run sched (join (processFeeds (all_feeds w res))).1 w)
    as [[p w'] evs].
  cbn [fst snd] in Hinv, Hprog |- *.
  destruct Hinv as [Hcbs Hset].
  pose proof (callbacks_inv_length _ _ _ Hcbs) as Hlen.
  assert (Hall : forallb settled (callbacks p) = true).
  { apply forallb_forall. intros t Ht.
    apply list_elem_of_In, list_elem_of_lookup_1 in Ht as [j Hj].
    pose proof (lookup_lt_Some _ _ _ Hj) as Hlt. rewrite Hlen in Hlt.
    specialize (Hprog j). specialize (Hfair j Hlt).
    unfold progress in Hprog at 2. rewrite Hj in Hprog.
    destruct (settled t) eqn:Hst; [reflexivity|].
    destruct Hcbs as (Hcb & _). specialize (Hcb j).
    destruct (all_feeds w res !! j) as [feed|].
    - destruct Hcb as (t0 & Ht0 & Hr). rewrite Hj in Ht0.
      injection Ht0 as <-.
      pose proof (reached_unsettled _ _ _ Hr Hst) as Hshort.
      exfalso. pose proof (Nat.le_trans _ _ _ Hprog Hshort) as Hle.
      clear -Hle Hfair. lia.
    - destruct Hcb as [Hcb _]. congruence. }
  split; [|split; [exact Hlen | exact Hall]].
  destruct p as [c|cbs|cbs]; [contradiction | | reflexivity].
  exfalso. destruct Hset as [Hrej Hnot]. simpl in Hall.
  assert (forallb fulfilled cbs = true); [|congruence].
  apply forallb_forall. intros t Ht.
  pose proof (proj1 (forallb_forall _ _) Hall t Ht) as Hst.
  apply list_elem_of_In, list_elem_of_lookup_1 in Ht as [j Hj].
  pose proof (rejection_head _ _ _ Hrej Hj) as Hr.
  destruct t; [reflexivity | discriminate | discriminate].
Qed.

(** * Further properties of the code *)

(** ** The flattening of line 71 *)

(** X1. The array [feeds] of line 71 holds, in the order of the response,
    the feeds of every user that is not flagged, and one [null] for every
    user that is: a user without feeds contributes nothing, a flagged user
    contributes one entry whatever the number of its feeds. *)
Theorem flatMap_of_directory (res : Response) :
  omap id (userFeeds res) = discovered res
  /\ length (List.filter is_null (userFeeds res))
     = length (List.filter isFlagged (body res))
  /\ length (userFeeds res)
     = length (discovered res) + length (List.filter isFlagged (body res)).
Proof.
  split; [apply userFeeds_not_null|]. split; [|apply userFeeds_length].
  destruct res as [st users]. induction users as [|user users IH].
  - reflexivity.
  - rewrite userFeeds_cons, List.filter_app, length_app. simpl body in *.
    rewrite IH. simpl. destruct (isFlagged user); simpl; [reflexivity|].
    assert (Hnone : forall l : list FeedData,
               List.filter is_null (map Some l) = []).
    { induction l as [|x l IHl]; [reflexivity | exact IHl]. }
    now rewrite Hnone.
Qed.

(** ** A pass with nothing to process *)

Lemma userFeeds_nothing res :
  Forall (fun user => isFlagged user = false /\ feeds user = []) (body res) ->
  userFeeds res = [].
Proof.
  destruct res as [st users]. simpl. induction 1 as [|user users [Hf Hu] _ IH].
  - reflexivity.
  - rewrite userFeeds_cons, Hf, Hu. exact IH.
Qed.

(** X2. With an empty store and a directory that answers 200 with no feed
    at all (no user, or users that list nothing and are not flagged),
    [Promise.all] has nothing to wait for: after the fetch and
    [Feed.all()] have settled the pass has returned, it made no further
    call and logged no error, and the world is as it was. *)
Theorem pass_over_nothing (w : World) (res : Response) (i j : nat)
  (sched : list nat) :
  directory w = Fulfilled res ->
  status res = 200 ->
  store w = [] ->
  Forall (fun user => isFlagged user = false /\ feeds user = []) (body res) ->
  pass_run (i :: j :: sched) processAllFeeds w =
  (Returned [], w,
   [(Main, CFetch (Fulfilled res)); (Main, CAll (Fulfilled []))]).
Proof.
  intros Hd Hs Hstore Hnone.
  rewrite (pass_run_past_all _ _ _ _ _ Hd Hs).
  unfold all_feeds. rewrite Hstore, (userFeeds_nothing _ Hnone). simpl.
  now rewrite pass_run_nothing_left.
Qed.

Lemma pass_over_nothing_witness :
  pass_run [0; 0; 3; 1] processAllFeeds
           (mkWorld [] (ok [mkUser false []; mkUser false []])) =
  (Returned [], mkWorld [] (ok [mkUser false []; mkUser false []]),
   [(Main, CFetch (ok [mkUser false []; mkUser false []]));
    (Main, CAll (Fulfilled []))]).
Proof.
  apply (pass_over_nothing
           (mkWorld [] (ok [mkUser false []; mkUser false []]))
           (mkResponse 200 [mkUser false []; mkUser false []]) 0 0 [3; 1]).
  - reflexivity.
  - reflexivity.
  - reflexivity.
  - repeat constructor.
Defined.

(** ** A directory with a flagged user *)

Lemma flagged_leaves_null res :
  existsb isFlagged (body res) = true -> In None (userFeeds res).
Proof.
  destruct res as [st users]. simpl. induction users as [|user users IH].
  - discriminate.
  - rewrite userFeeds_cons. simpl. intros H. apply in_or_app.
    destruct (isFlagged user); simpl in *; [left; now left | right; auto].
Qed.

(** X3. Whenever the directory answers 200 and one of its users is
    flagged, the pass ends in its [catch] under every schedule: once
    [processFeeds] has been called [processAllFeeds] has returned,
    'Error queuing feeds' is logged, and the pass never counts as
    succeeded, whatever the other callbacks do. *)
Theorem flagged_user_fails_the_pass (w : World) (res : Response) (i j : nat)
  (sched : list nat) :
  directory w = Fulfilled res ->
  status res = 200 ->
  existsb isFlagged (body res) = true ->
  let '(p, w', evs) := pass_run (i :: j :: sched) processAllFeeds w in
  returned p = true
  /\ logged_error "Error queuing feeds"%string evs = true
  /\ succeeded p = false
  /\ In (Throw TypeError) (callbacks p).
Proof.
  intros Hd Hs Hflag.
  pose proof (pass_inv_past_all i j sched w res Hd Hs) as Hinv.
  destruct (pass_run (i :: j :: sched) processAllFeeds w) as [[p w'] evs].
  simpl in Hinv. destruct Hinv as [Hcbs Hset].
  assert (Hnull : exists k, callbacks p !! k = Some (Throw TypeError)).
  { apply flagged_leaves_null in Hflag.
    assert (Hin : In None (all_feeds w res)).
    { unfold all_feeds. apply in_or_app. now right. }
    apply list_elem_of_In, list_elem_of_lookup_1 in Hin as [k Hk].
    destruct Hcbs as [Hcb _]. specialize (Hcb k). rewrite Hk in Hcb.
    destruct Hcb as (t & Ht & Hr). apply reached_null in Hr as [-> _].
    now exists k. }
  destruct Hnull as [k Hk].
  assert (Hin : In (Throw TypeError) (callbacks p)).
  { apply list_elem_of_In. eapply list_elem_of_lookup_2. exact Hk. }
  destruct p as [c|cbs|cbs]; [contradiction| |]; simpl in Hk, Hin |- *.
  - apply (rejection_head _ _ _ (proj1 Hset)) in Hk. discriminate.
  - assert (Hnot : forallb fulfilled cbs = false).
    { destruct (forallb fulfilled cbs) eqn:Hall; [|reflexivity].
      apply (forallb_lookup _ _ _ _ Hall) in Hk. discriminate. }
    rewrite Hnot in Hset. destruct Hset as [Hlog | Habs]; [|discriminate].
    repeat split; assumption.
Qed.

Lemma flagged_user_fails_the_pass_witness :
  logged_error "Error queuing feeds"%string
    (pass_run [0; 0; 1; 2; 1; 2] processAllFeeds
              (mkWorld [feed_a] (Fulfilled with_flagged))).2 = true.
Proof.
  exact (proj1 (proj2 (flagged_user_fails_the_pass
                         (mkWorld [feed_a] (Fulfilled with_flagged))
                         with_flagged 0 0 [1; 2; 1; 2]
                         eq_refl eq_refl eq_refl))).
Defined.

(** ** How a pass can stand *)

(** A pass under any schedule: either it made no call but the fetch, and
    has no callback; or the directory answered 200 and the invariant of
    the callbacks holds. *)
Lemma processAllFeeds_cases sched w :
  ((pass_run sched processAllFeeds w).1.2 = w
   /\ callbacks (pass_run sched processAllFeeds w).1.1 = []
   /\ Forall (fun ev => match snd ev with
                        | CFetch _ | CLog _ _ _ _ => True
                        | _ => False
                        end) (pass_run sched processAllFeeds w).2)
  \/ exists res i j sched',
      sched = i :: j :: sched'
      /\ directory w = Fulfilled res
      /\ status res = 200
      /\ pass_inv (all_feeds w res) (pass_run sched processAllFeeds w).1.1
                  (pass_run sched processAllFeeds w).2.
Proof.
  destruct sched as [|i sched].
  { left. repeat split. constructor. }
  destruct (directory w) as [res|err] eqn:Hd.
  - destruct (Nat.eqb (status res) 200) eqn:Hs.
    + destruct sched as [|j sched].
      * left. cbn [pass_run]. rewrite pass_step_fetch, Hd, Hs.
        repeat split. repeat constructor.
      * right. apply Nat.eqb_eq in Hs. exists res, i, j, sched.
        split; [reflexivity|]. split; [reflexivity|]. split; [exact Hs|].
        now apply pass_inv_past_all.
    + left. cbn [pass_run]. rewrite pass_step_fetch, Hd, Hs.
      rewrite pass_run_nothing_left. repeat split. repeat constructor.
  - left. cbn [pass_run]. rewrite pass_step_fetch, Hd.
    rewrite pass_run_nothing_left. repeat split. repeat constructor.
Qed.

Lemma quiet_no_addFeed (evs : list Event) :
  Forall (fun ev => match snd ev with
                    | CFetch _ | CLog _ _ _ _ => True
                    | _ => False
                    end) evs ->
  no_addFeed evs.
Proof.
  intros H. eapply Forall_impl; [exact H|].
  intros [a c] Hc. now destruct c.
Qed.

(** ** A rejected create *)

(** A callback whose [Feed.create] was rejected has ended there. *)
Lemma reached_create_rejected feed t h d e :
  reached feed t h ->
  In (CCreate d (Rejected e)) h ->
  feed = Some d
  /\ t = Throw DuplicateUrl
  /\ h = [CByUrl (url d) (Fulfilled None); CCreate d (Rejected DuplicateUrl)].
Proof.
  assert (Hres : forall d0 h0 f, resolved d0 h0 f ->
                                 ~ In (CCreate d (Rejected e)) h0).
  { intros d0 h0 f [-> | [id ->]] Hin; simpl in Hin;
      repeat (destruct Hin as [Hin | Hin]; [discriminate|]); contradiction. }
  intros H Hin. destruct H;
    try (simpl in Hin;
         repeat (destruct Hin as [Hin | Hin]; [discriminate|]);
         contradiction).
  - now apply Hres in H.
  - apply in_app_or in Hin as [Hin | [Hin | []]]; [|discriminate].
    now apply Hres in H.
  - simpl in Hin. destruct Hin as [Hin | [Hin | []]]; [discriminate|].
    injection Hin as <- <-. now repeat split.
Qed.

(** C5, as the code has it.  [updateFeed] does not handle the rejection of
    [Feed.create].  Whenever, under any schedule, the [Feed.create] of a
    callback has been rejected with [DuplicateUrl], that callback is
    rejected with this error; it has made the lookup, which found nothing,
    and the create, and no call after it, so no [addFeed] for its source;
    and [processAllFeeds] has ended in its [catch], logging 'Error queuing
    feeds': the pass has not succeeded. *)
Theorem duplicateUrl_rejects_the_pass (w : World) (sched : list nat)
  (i : nat) (d : FeedData) :
  let '(p, w', evs) := pass_run sched processAllFeeds w in
  In (Callback i, CCreate d (Rejected DuplicateUrl)) evs ->
  callbacks p !! i = Some (Throw DuplicateUrl)
  /\ returned p = true
  /\ succeeded p = false
  /\ logged_error "Error queuing feeds"%string evs = true
  /\ exists res,
      directory w = Fulfilled res
      /\ all_feeds w res !! i = Some (Some d)
      /\ calls_of i evs = [CByUrl (url d) (Fulfilled None);
                           CCreate d (Rejected DuplicateUrl)].
Proof.
  destruct (processAllFeeds_cases sched w)
    as [(_ & _ & Hq) | (res & _ & _ & _ & _ & Hd & _ & Hinv)];
    destruct (pass_run sched processAllFeeds w) as [[p w'] evs];
    cbn [fst snd] in *; intros Hin.
  { apply list_elem_of_In in Hin. rewrite Forall_forall in Hq.
    apply Hq in Hin. contradiction. }
  destruct Hinv as [(Hcb & _ & _) Hset].
  apply calls_of_In in Hin. specialize (Hcb i).
  destruct (all_feeds w res !! i) as [feed|] eqn:Hf.
  - destruct Hcb as (t & Hi & Hr).
    destruct (reached_create_rejected _ _ _ _ _ Hr Hin) as (-> & -> & Hh).
    split; [exact Hi|].
    assert (Hnot : forall cbs, cbs !! i = Some (@Throw unit DuplicateUrl) ->
                               forallb fulfilled cbs = false).
    { intros cbs Hcbs.
      destruct (forallb fulfilled cbs) eqn:Hall; [|reflexivity].
      apply (forallb_lookup _ _ _ _ Hall) in Hcbs. discriminate. }
    destruct p as [c|cbs|cbs]; [contradiction| |]; simpl in Hi.
    + apply (rejection_head _ _ _ (proj1 Hset)) in Hi. discriminate.
    + split; [reflexivity|]. split; [exact (Hnot _ Hi)|].
      split; [|now exists res].
      destruct Hset as [Hlog | Hall]; [exact Hlog|].
      rewrite (Hnot _ Hi) in Hall. discriminate.
  - destruct Hcb as [_ Hnone]. rewrite Hnone in Hin. contradiction.
Qed.

Lemma duplicateUrl_rejects_the_pass_witness :
  let '(p, w', evs) :=
    pass_run [0; 0; 0; 1; 0; 1; 0; 0] processAllFeeds listed_twice in
  callbacks p !! 1 = Some (Throw DuplicateUrl)
  /\ returned p = true
  /\ succeeded p = false
  /\ logged_error "Error queuing feeds"%string evs = true
  /\ exists res,
      directory listed_twice = Fulfilled res
      /\ all_feeds listed_twice res !! 1
         = Some (Some (mkFeedData url_b "Robert"%string))
      /\ calls_of 1 evs = [CByUrl url_b (Fulfilled None);
                           CCreate (mkFeedData url_b "Robert"%string)
                                   (Rejected DuplicateUrl)].
Proof.
  apply (duplicateUrl_rejects_the_pass
           listed_twice [0; 0; 0; 1; 0; 1; 0; 0] 1
           (mkFeedData url_b "Robert"%string)).
  vm_compute. tauto.
Defined.

(** ** At most one job per element *)

Lemma all_feeds_not_null w res :
  omap id (all_feeds w res) = persisted w ++ discovered res.
Proof.
  unfold all_feeds, persisted. rewrite omap_app, userFeeds_not_null.
  f_equal. induction (store w) as [|f fs IH]; [reflexivity|].
  change (feedData_of f :: omap id (map (fun f => Some (feedData_of f)) fs)
          = feedData_of f :: map feedData_of fs).
  now f_equal.
Qed.

(** A callback has called [addFeed] at most once: it awaits the call, or
    the call has settled and the callback is fulfilled, or there was
    none. *)
Lemma reached_called feed t h :
  reached feed t h ->
  length (List.filter is_addFeed h) + b2n (awaits_addFeed t) <= 1.
Proof.
  assert (Hres : forall d h f, resolved d h f -> List.filter is_addFeed h = []).
  { intros d h0 f [-> | [id ->]]; reflexivity. }
  intros H. destruct H; try (simpl; lia).
  - rewrite (Hres _ _ _ H). simpl. lia.
  - rewrite List.filter_app, (Hres _ _ _ H). simpl. lia.
Qed.

Lemma called_not_null feeds cbs :
  Forall2 (fun (feed : option FeedData) (t : Prog unit) =>
             feed = None -> fulfilled t = false /\ awaits_addFeed t = false)
          feeds cbs ->
  count_fulfilled cbs + length (List.filter awaits_addFeed cbs)
  <= length (omap id feeds).
Proof.
  unfold count_fulfilled.
  induction 1 as [|feed t feeds cbs H _ IH]; [reflexivity|].
  destruct feed as [d|].
  - change (omap id (Some d :: feeds)) with (d :: omap id feeds).
    destruct t as [a|e|B op k]; simpl in *; try lia.
    destruct op; simpl; lia.
  - change (omap id (None :: feeds)) with (omap id feeds).
    destruct (H eq_refl) as [Hf Ha]. simpl. now rewrite Hf, Ha.
Qed.

Lemma quiet_calls_no_addFeed (evs : list Event) (i : nat) :
  Forall (fun ev => match snd ev with
                    | CFetch _ | CLog _ _ _ _ => True
                    | _ => False
                    end) evs ->
  List.filter is_addFeed (calls_of i evs) = [].
Proof.
  induction 1 as [|[a c] evs Hc _ IH]; [reflexivity|].
  change (calls_of i ((a, c) :: evs))
    with (match (match a with
                 | Callback j => if Nat.eqb j i then Some c else None
                 | Main => None
                 end) with
          | Some y => y :: calls_of i evs
          | None => calls_of i evs
          end).
  destruct a as [|j]; [exact IH|].
  destruct (Nat.eqb j i); [|exact IH].
  destruct c; simpl in Hc |- *; try contradiction; exact IH.
Qed.

(** X4. At every moment of a pass, under every schedule, the calls of
    [addFeed] made so far, settled or still awaited, are at most as many
    as there are persisted feeds and sources of unflagged users, and each
    callback has made at most one: no element is enqueued twice, and a
    [null] entry never. *)
Theorem addFeed_at_most_once_per_element (w : World) (res : Response)
  (sched : list nat) :
  directory w = Fulfilled res ->
  let '(p, w', evs) := pass_run sched processAllFeeds w in
  addFeed_called p evs <= length (store w) + length (discovered res)
  /\ forall i,
      length (List.filter is_addFeed (calls_of i evs))
      + match callbacks p !! i with
        | Some t => b2n (awaits_addFeed t)
        | None => 0
        end <= 1.
Proof.
  intros Hd. unfold addFeed_called.
  destruct (processAllFeeds_cases sched w)
    as [(_ & Hcb & Hq) | (res' & i & j & sched' & _ & Hd' & _ & Hinv)].
  - destruct (pass_run sched processAllFeeds w) as [[p w'] evs].
    simpl in Hcb, Hq. rewrite Hcb.
    rewrite (no_addFeed_ids _ (quiet_no_addFeed _ Hq)).
    split; [simpl; lia|].
    intros k. rewrite (quiet_calls_no_addFeed _ k Hq). simpl. lia.
  - rewrite Hd in Hd'. injection Hd' as <-.
    destruct (pass_run sched processAllFeeds w) as [[p w'] evs].
    simpl in Hinv. destruct Hinv as [Hcbs _].
    pose proof (callbacks_inv_length _ _ _ Hcbs) as Hlen.
    destruct Hcbs as (Hcb & Hcount & _).
    split.
    + rewrite Hcount.
      assert (H2 : Forall2 (fun (feed : option FeedData) (t : Prog unit) =>
                              feed = None ->
                              fulfilled t = false /\ awaits_addFeed t = false)
                           (all_feeds w res) (callbacks p)).
      { apply Forall2_same_length_lookup_2; [now symmetry|].
        intros k feed t Hk Ht ->. specialize (Hcb k). rewrite Hk in Hcb.
        destruct Hcb as (t0 & Ht0 & Hr). apply reached_null in Hr as [-> _].
        rewrite Ht in Ht0. injection Ht0 as ->. now split. }
      apply called_not_null in H2.
      rewrite all_feeds_not_null, length_app in H2.
      unfold persisted in H2. rewrite length_map in H2. exact H2.
    + intros k. specialize (Hcb k).
      destruct (all_feeds w res !! k) as [feed|].
      * destruct Hcb as (t & -> & Hr). exact (reached_called _ _ _ Hr).
      * destruct Hcb as [-> ->]. simpl. lia.
Qed.

Lemma addFeed_at_most_once_per_element_witness :
  let '(p, w', evs) :=
    pass_run [0; 0; 1; 1; 1; 2; 2; 2; 2] processAllFeeds
             (mkWorld [] (Fulfilled with_flagged)) in
  addFeed_called p evs <= length (@nil Feed) + length (discovered with_flagged)
  /\ forall i,
      length (List.filter is_addFeed (calls_of i evs))
      + match callbacks p !! i with
        | Some t => b2n (awaits_addFeed t)
        | None => 0
        end <= 1.
Proof.
  exact (addFeed_at_most_once_per_element
           (mkWorld [] (Fulfilled with_flagged)) with_flagged
           [0; 0; 1; 1; 1; 2; 2; 2; 2] eq_refl).
Defined.

(** In that pass callback 1 is suspended on [addFeed], whose call the
    trace does not hold yet, and callback 2 has had its call settled. *)
Example one_awaited_one_settled :
  let '(p, w', evs) :=
    pass_run [0; 0; 1; 1; 1; 2; 2; 2; 2] processAllFeeds
             (mkWorld [] (Fulfilled with_flagged)) in
  map awaits_addFeed (callbacks p) = [false; true; false]
  /\ map fulfilled (callbacks p) = [false; false; true]
  /\ addFeed_ids evs = [2]
  /\ addFeed_called p evs = 2.
Proof. vm_compute. repeat split. Qed.

(** ** What a pass does to the store *)

Lemma created_count_app evs1 evs2 :
  created_count (evs1 ++ evs2) = created_count evs1 + created_count evs2.
Proof. unfold created_count. now rewrite List.filter_app, length_app. Qed.

Lemma created_count_tag a cs :
  created_count (tag a cs) = length (List.filter is_created cs).
Proof.
  unfold created_count, tag. induction cs as [|c cs IH]; [reflexivity|].
  simpl. destruct (is_created c); simpl; now rewrite IH.
Qed.

Lemma created_count_join cbs : created_count (join cbs).2 = 0.
Proof.
  unfold join. destruct (head (omap rejection cbs)); [reflexivity|].
  destruct (forallb fulfilled cbs); reflexivity.
Qed.

(** One resumption of a callback leaves the records of the store in place
    and adds one when its [Feed.create] is fulfilled, none otherwise. *)
Lemma reached_step_store feed t h w :
  reached feed t h ->
  exists l,
    store (step t w).1.2 = store w ++ l
    /\ length l = length (List.filter is_created (step t w).2)
    /\ directory (step t w).1.2 = directory w.
Proof.
  intros H. destruct H; cbn;
    try (exists []; rewrite app_nil_r; now repeat split).
  unfold create. destruct (byUrl (store w) (url d)); cbn.
  - exists []. rewrite app_nil_r. now repeat split.
  - eexists. now repeat split.
Qed.

Lemma pass_inv_step_store feeds p evs i w :
  pass_inv feeds p evs ->
  exists l,
    store (pass_step i p w).1.2 = store w ++ l
    /\ length l = created_count (pass_step i p w).2
    /\ directory (pass_step i p w).1.2 = directory w.
Proof.
  intros [[Hcb _] Hset].
  assert (Hstay : exists l : list Feed,
             store w = store w ++ l /\ length l = created_count []
             /\ directory w = directory w).
  { exists []. rewrite app_nil_r. now repeat split. }
  assert (Hreach : forall t, callbacks p !! i = Some t ->
                             exists feed h, reached feed t h).
  { intros t Ht. specialize (Hcb i).
    destruct (feeds !! i) as [feed|].
    - destruct Hcb as (t0 & Ht0 & Hr). exists feed, (calls_of i evs).
      congruence.
    - destruct Hcb. congruence. }
  destruct p as [c|cbs|cbs]; [contradiction| |]; simpl in Hreach |- *.
  - destruct (cbs !! i) as [t|]; [|exact Hstay].
    destruct (Hreach t eq_refl) as (feed & h & Hr).
    destruct (reached_step_store _ _ _ w Hr) as (l & Hl & Hn & Hdir).
    pose proof (created_count_join (<[i:=(step t w).1.1]> cbs)) as Hj.
    destruct (step t w) as [[t' w'] cs]. simpl in *.
    destruct (join (<[i:=t']> cbs)) as [p' evs2]. simpl in *.
    exists l. rewrite created_count_app, created_count_tag, Hj.
    repeat split; [assumption | lia | assumption].
  - destruct (cbs !! i) as [t|]; [|exact Hstay].
    destruct (Hreach t eq_refl) as (feed & h & Hr).
    destruct (reached_step_store _ _ _ w Hr) as (l & Hl & Hn & Hdir).
    destruct (step t w) as [[t' w'] cs]. simpl in *.
    exists l. rewrite created_count_tag. now repeat split.
Qed.

Lemma pass_inv_run_store feeds sched p evs w :
  pass_inv feeds p evs ->
  exists l,
    store (pass_run sched p w).1.2 = store w ++ l
    /\ length l = created_count (pass_run sched p w).2
    /\ directory (pass_run sched p w).1.2 = directory w.
Proof.
  revert p evs w. induction sched as [|i sched IH]; intros p evs w H.
  - exists []. simpl. rewrite app_nil_r. now repeat split.
  - pose proof (pass_inv_step _ _ _ i w H) as H1.
    destruct (pass_inv_step_store _ _ _ i w H) as (l1 & Hl1 & Hn1 & Hd1).
    cbn [pass_run].
    destruct (pass_step i p w) as [[p1 w1] evs1]. simpl in *.
    destruct (IH _ _ w1 H1) as (l2 & Hl2 & Hn2 & Hd2).
    destruct (pass_run sched p1 w1) as [[p2 w2] evs2]. simpl in *.
    exists (l1 ++ l2). rewrite created_count_app, length_app.
    repeat split; [|lia | congruence].
    rewrite Hl2, Hl1. now rewrite app_assoc.
Qed.

Lemma quiet_created_count (evs : list Event) :
  Forall (fun ev => match snd ev with
                    | CFetch _ | CLog _ _ _ _ => True
                    | _ => False
                    end) evs ->
  created_count evs = 0.
Proof.
  unfold created_count. induction 1 as [|[a c] evs Hc _ IH]; [reflexivity|].
  simpl. destruct c; try contradiction; exact IH.
Qed.

(** X5. A pass only ever appends to the store, under every schedule and
    whatever the directory answers: the records that were persisted when
    it started are all still there, in their order and with every field
    as it was (caching metadata, validity), followed by one new record
    per fulfilled [Feed.create]; the pass never invalidates, rewrites or
    removes a feed. *)
Theorem pass_only_appends (w : World) (sched : list nat) :
  let '(p, w', evs) := pass_run sched processAllFeeds w in
  exists l,
    store w' = store w ++ l
    /\ length l = created_count evs
    /\ directory w' = directory w.
Proof.
  destruct (processAllFeeds_cases sched w)
    as [(Hw & _ & Hq) | (res & i & j & sched' & -> & Hd & Hs & _)].
  - destruct (pass_run sched processAllFeeds w) as [[p w'] evs].
    simpl in Hw, Hq. subst w'. exists [].
    rewrite app_nil_r, (quiet_created_count _ Hq). now repeat split.
  - rewrite (pass_run_past_all _ _ _ _ _ Hd Hs).
    pose proof (pass_inv_join (all_feeds w res)
                  [(Main, CFetch (Fulfilled res));
                   (Main, CAll (Fulfilled (store w)))]
                  (fun _ => eq_refl) ltac:(repeat constructor)) as H0.
    destruct (pass_inv_run_store _ sched' _ _ w H0) as (l & Hl & Hn & Hdir).
    cbn [fst snd]. exists l.
    rewrite created_count_app.
    change (created_count
              ((Main, CFetch (Fulfilled res))
                 :: (Main, CAll (Fulfilled (store w)))
                 :: (join (processFeeds (all_feeds w res))).2))
      with (created_count (join (processFeeds (all_feeds w res))).2).
    rewrite created_count_join. now repeat split.
Qed.

(** ** A pass over URLs that are all known *)

Lemma in_store_byUrl fs f : In f fs -> byUrl fs (feed_url f) <> None.
Proof.
  intros Hin Hnone. apply (find_none _ _ Hnone) in Hin.
  simpl in Hin. now rewrite String.eqb_refl in Hin.
Qed.

Lemma in_store_byId fs f : In f fs -> byId fs (feed_id f) <> None.
Proof.
  intros Hin Hnone. apply (find_none _ _ Hnone) in Hin.
  simpl in Hin. now rewrite Nat.eqb_refl in Hin.
Qed.

(** A callback for a known URL that has seen no lookup miss leaves the
    world as it is, and sees none. *)
Lemma reached_step_known feed t h w :
  reached feed t h ->
  Forall (fun c => is_miss c = false) h ->
  (forall d, feed = Some d -> byUrl (store w) (url d) <> None) ->
  (step t w).1.2 = w
  /\ Forall (fun c => is_miss c = false) (h ++ (step t w).2).
Proof.
  intros H Hh Hknown.
  destruct H; cbn;
    try (apply Forall_cons in Hh as [Hmiss _]; discriminate Hmiss).
  - now split.
  - specialize (Hknown d eq_refl).
    destruct (byUrl (store w) (url d)) as [f|]; [|contradiction].
    split; [reflexivity | repeat constructor].
  - split; [reflexivity|]. apply Forall_app. split; [exact Hh|].
    repeat constructor.
  - split; [reflexivity|]. now rewrite app_nil_r.
Qed.

Lemma all_feeds_known w res :
  (forall d, In d (discovered res) -> byUrl (store w) (url d) <> None) ->
  forall i d, all_feeds w res !! i = Some (Some d) ->
              byUrl (store w) (url d) <> None.
Proof.
  intros Hknown i d Hi.
  assert (Hin : In d (omap id (all_feeds w res))).
  { apply list_elem_of_In, list_elem_of_omap. exists (Some d).
    split; [|reflexivity]. eapply list_elem_of_lookup_2. exact Hi. }
  rewrite all_feeds_not_null in Hin. apply in_app_or in Hin as [Hin|Hin].
  - unfold persisted in Hin. apply in_map_iff in Hin as (f & <- & Hf).
    now apply in_store_byUrl.
  - now apply Hknown.
Qed.

Section KnownUrls.
Variables (w0 : World) (feeds : list (option FeedData)).
Hypothesis Hknown :
  forall i d, feeds !! i = Some (Some d) -> byUrl (store w0) (url d) <> None.

Lemma reads_only_step i p w evs :
  reads_only w0 feeds p w evs ->
  reads_only w0 feeds (pass_step i p w).1.1 (pass_step i p w).1.2
             (evs ++ (pass_step i p w).2).
Proof.
  intros (Hinv & -> & Hmiss).
  split; [now apply pass_inv_step|].
  assert (Hc : collecting p = false).
  { destruct Hinv as [_ Hset]. now destruct p. }
  destruct (pass_step_callbacks i p w0 Hc) as (_ & _ & Hcalls).
  assert (Hcb : forall t, callbacks p !! i = Some t ->
                          (step t w0).1.2 = w0
                          /\ Forall (fun c => is_miss c = false)
                                    (calls_of i evs ++ (step t w0).2)).
  { intros t Ht. destruct Hinv as [[Hcb _] _]. specialize (Hcb i).
    destruct (feeds !! i) as [feed|] eqn:Hf.
    - destruct Hcb as (t0 & Ht0 & Hr). rewrite Ht in Ht0.
      injection Ht0 as <-.
      apply (reached_step_known _ _ _ w0 Hr (Hmiss i)).
      intros d ->. exact (Hknown i d Hf).
    - destruct Hcb. congruence. }
  split.
  - destruct p as [c|cbs|cbs]; [discriminate| |]; simpl in Hcb |- *.
    + destruct (cbs !! i) as [t|]; [|reflexivity].
      destruct (Hcb t eq_refl) as [Hw _].
      destruct (step t w0) as [[t' w'] cs].
      destruct (join (<[i:=t']> cbs)). exact Hw.
    + destruct (cbs !! i) as [t|]; [|reflexivity].
      destruct (Hcb t eq_refl) as [Hw _].
      destruct (step t w0) as [[t' w'] cs]. exact Hw.
  - intros k. rewrite calls_of_app, Hcalls.
    destruct (callbacks p !! i) as [t|]; [|now rewrite app_nil_r].
    destruct (decide (i = k)) as [<-|Hne]; [|now rewrite app_nil_r].
    now apply Hcb.
Qed.

Lemma reads_only_run sched p w evs :
  reads_only w0 feeds p w evs ->
  reads_only w0 feeds (pass_run sched p w).1.1 (pass_run sched p w).1.2
             (evs ++ (pass_run sched p w).2).
Proof.
  revert p w evs. induction sched as [|i sched IH]; intros p w evs H.
  - simpl. now rewrite app_nil_r.
  - pose proof (reads_only_step i _ _ _ H) as H1. cbn [pass_run].
    destruct (pass_step i p w) as [[p1 w1] evs1]. simpl in H1.
    pose proof (IH _ _ _ H1) as H2.
    destruct (pass_run sched p1 w1) as [[p2 w2] evs2]. simpl in *.
    now rewrite app_assoc.
Qed.
End KnownUrls.

(** X6. When every source that the directory lists for an unflagged user
    already has a record, the pass writes nothing, under every schedule:
    the world is left as it was, no [Feed.create] is fulfilled, no lookup
    by URL misses, and no callback is rejected with [DuplicateUrl]. *)
Theorem pass_over_known_urls_reads_only (w : World) (res : Response)
  (sched : list nat) :
  directory w = Fulfilled res ->
  (forall d, In d (discovered res) -> byUrl (store w) (url d) <> None) ->
  let '(p, w', evs) := pass_run sched processAllFeeds w in
  w' = w
  /\ created_count evs = 0
  /\ (forall i, Forall (fun c => is_miss c = false) (calls_of i evs))
  /\ (forall i, callbacks p !! i <> Some (Throw DuplicateUrl)).
Proof.
  intros Hd Hknown.
  destruct (processAllFeeds_cases sched w)
    as [(Hw & Hcb & Hq) | (res' & i & j & sched' & -> & Hd' & Hs & _)].
  - destruct (pass_run sched processAllFeeds w) as [[p w'] evs].
    simpl in Hw, Hcb, Hq. split; [exact Hw|].
    split; [now apply quiet_created_count|]. split.
    + intros i. clear -Hq. induction Hq as [|[a c] evs Hc _ IH]; [constructor|].
      destruct a as [|k]; [exact IH|].
      destruct c; try contradiction;
        (change (calls_of i ((Callback k, ?c) :: evs))
           with (calls_of i (tag (Callback k) [c] ++ evs)));
        rewrite calls_of_app; apply Forall_app; (split; [|exact IH]);
        (destruct (decide (k = i)) as [->|Hne];
         [rewrite calls_of_tag_same; repeat constructor
         |rewrite (calls_of_tag_other _ _ _ Hne); constructor]).
    + intros i. rewrite Hcb. discriminate.
  - rewrite Hd in Hd'. injection Hd' as <-.
    rewrite (pass_run_past_all _ _ _ _ _ Hd Hs).
    pose proof (pass_inv_join (all_feeds w res)
                  [(Main, CFetch (Fulfilled res));
                   (Main, CAll (Fulfilled (store w)))]
                  (fun _ => eq_refl) ltac:(repeat constructor)) as H0.
    assert (Hstart : reads_only w (all_feeds w res)
                       (join (processFeeds (all_feeds w res))).1 w
                       ([(Main, CFetch (Fulfilled res));
                         (Main, CAll (Fulfilled (store w)))]
                          ++ (join (processFeeds (all_feeds w res))).2)).
    { split; [exact H0|]. split; [reflexivity|]. intros k.
      rewrite calls_of_app, (proj1 (join_events _ k)). constructor. }
    pose proof (reads_only_run w (all_feeds w res)
                  (all_feeds_known w res Hknown) sched' _ _ _ Hstart)
      as (Hinv & Hw & Hmiss).
    pose proof (pass_inv_run_store _ sched' _ _ w H0) as (l & Hl & Hn & _).
    destruct (pass_run sched' (join (processFeeds (all_feeds w res))).1 w)
      as [[p w'] evs].
    cbn [fst snd] in *. subst w'.
    split; [reflexivity|]. split; [|split].
    + rewrite created_count_app.
      change (created_count
                ((Main, CFetch (Fulfilled res))
                   :: (Main, CAll (Fulfilled (store w)))
                   :: (join (processFeeds (all_feeds w res))).2))
        with (created_count (join (processFeeds (all_feeds w res))).2).
      rewrite created_count_join, <- Hn.
      assert (Hlen : length (store w) = length (store w ++ l)) by congruence.
      rewrite length_app in Hlen. lia.
    + intros k. exact (Hmiss k).
    + intros k Hk. destruct Hinv as [[Hcb _] _]. specialize (Hcb k).
      destruct (all_feeds w res !! k) as [feed|].
      * destruct Hcb as (t & Ht & Hr). rewrite Hk in Ht. injection Ht as <-.
        destruct (reached_rejected _ _ _ _ Hr eq_refl)
          as [(_ & E & _) | [(d & _ & _ & Hh) | (d & id & _ & E & _)]];
          try discriminate E.
        assert (Hm : Forall (fun c => is_miss c = false)
                            [CByUrl (url d) (Fulfilled None);
                             CCreate d (Rejected DuplicateUrl)]).
        { rewrite <- Hh. exact (Hmiss k). }
        apply Forall_cons in Hm as [Hm _]. discriminate Hm.
      * destruct Hcb as [Hcb _]. congruence.
Qed.

(** ** The ids handed to the queue *)

Lemma perform_keeps_known {B} (op : Op B) w i :
  byId (store w) i <> None -> byId (store (perform op w).2) i <> None.
Proof.
  intros H. destruct (byId (store w) i) as [f|] eqn:E; [|contradiction].
  destruct (perform_keeps_id op w i f E) as [f' ->]. discriminate.
Qed.

Lemma known_replies_quiet w evs evs2 :
  known_replies w evs ->
  (forall a c f, In (a, c) evs2 -> ~ answered f c) ->
  known_replies w (evs ++ evs2).
Proof.
  intros H Hq a c f Hin Hc. apply in_app_or in Hin as [Hin|Hin].
  - exact (H a c f Hin Hc).
  - exfalso. exact (Hq a c f Hin Hc).
Qed.

(** One resumption of any program keeps the answers of the store good:
    what a read answers is in the store, and stays there. *)
Lemma step_known {A} (t : Prog A) a w evs :
  known_replies w evs ->
  known_replies (step t w).1.2 (evs ++ tag a (step t w).2).
Proof.
  intros H. destruct t as [x|e|B op k]; simpl;
    try (now rewrite app_nil_r).
  rewrite (surjective_pairing (perform op w)). simpl.
  intros b c f Hin Hc. apply in_app_or in Hin as [Hin|Hin].
  - apply perform_keeps_known. exact (H b c f Hin Hc).
  - destruct Hin as [[= <- <-]|[]].
    destruct op; simpl in Hc |- *; try contradiction.
    + destruct (byUrl (store w) s) as [g|] eqn:E; [|contradiction].
      subst g. apply in_store_byId. exact (proj1 (find_some _ _ E)).
    + destruct (byId (store w) i) as [g|] eqn:E; [|contradiction].
      subst g. apply in_store_byId. exact (proj1 (find_some _ _ E)).
Qed.

Lemma join_not_answered cbs a c f : In (a, c) (join cbs).2 -> ~ answered f c.
Proof.
  unfold join. destruct (head (omap rejection cbs)); simpl.
  - intros [[= <- <-]|[]]. now simpl.
  - destruct (forallb fulfilled cbs); intros [].
Qed.

Lemma pass_step_known i p w evs :
  known_replies w evs ->
  known_replies (pass_step i p w).1.2 (evs ++ (pass_step i p w).2).
Proof.
  intros H. destruct p as [c|cbs|cbs]; simpl.
  - pose proof (step_known c Main w evs H) as H1.
    destruct (step c w) as [[c' w'] cs]. simpl in H1.
    destruct c' as [[|feeds]|err|B op k]; simpl; try exact H1.
    + pose proof (join_not_answered (processFeeds feeds)) as Hj.
      destruct (join (processFeeds feeds)) as [p' evs2]. simpl in *.
      rewrite app_assoc. now apply known_replies_quiet.
    + rewrite app_assoc. apply known_replies_quiet; [exact H1|].
      intros a c0 f [[= <- <-]|[]]. now simpl.
  - destruct (cbs !! i) as [t|]; simpl; [|now rewrite app_nil_r].
    pose proof (step_known t (Callback i) w evs H) as H1.
    destruct (step t w) as [[t' w'] cs]. simpl in H1.
    pose proof (join_not_answered (<[i:=t']> cbs)) as Hj.
    destruct (join (<[i:=t']> cbs)) as [p' evs2]. simpl in *.
    rewrite app_assoc. now apply known_replies_quiet.
  - destruct (cbs !! i) as [t|]; simpl; [|now rewrite app_nil_r].
    pose proof (step_known t (Callback i) w evs H) as H1.
    now destruct (step t w) as [[t' w'] cs].
Qed.

Lemma pass_run_known sched p w evs :
  known_replies w evs ->
  known_replies (pass_run sched p w).1.2 (evs ++ (pass_run sched p w).2).
Proof.
  revert p w evs. induction sched as [|i sched IH]; intros p w evs H.
  - simpl. now rewrite app_nil_r.
  - pose proof (pass_step_known i p w evs H) as H1. cbn [pass_run].
    destruct (pass_step i p w) as [[p1 w1] evs1]. simpl in H1.
    pose proof (IH p1 w1 _ H1) as H2.
    destruct (pass_run sched p1 w1) as [[p2 w2] evs2]. simpl in *.
    now rewrite app_assoc.
Qed.

Lemma calls_of_from i c evs : In c (calls_of i evs) -> In (Callback i, c) evs.
Proof.
  induction evs as [|[a c0] evs IH]; [intros []|].
  change ((a, c0) :: evs) with ([(a, c0)] ++ evs). rewrite calls_of_app.
  intros Hin. apply in_app_or in Hin as [Hin|Hin].
  - left. destruct a as [|k]; [destruct Hin|].
    destruct (decide (k = i)) as [->|Hne].
    + rewrite (calls_of_cons_same i c0 []) in Hin.
      destruct Hin as [->|[]]. reflexivity.
    + change [(Callback k, c0)] with (tag (Callback k) [c0]) in Hin.
      rewrite (calls_of_tag_other _ _ _ Hne) in Hin. destruct Hin.
  - right. now apply IH.
Qed.

Lemma resolved_answered d h f :
  resolved d h f -> exists c, In c h /\ answered f c.
Proof.
  intros [-> | [id ->]].
  - exists (CByUrl (url d) (Fulfilled (Some f))). split; [now left | now simpl].
  - exists (CById id (Fulfilled (Some f))).
    split; [simpl; tauto | now simpl].
Qed.

(** X7. Every id that a pass hands to [feedQueue.addFeed], under any
    schedule, names a record of the store when the pass stops being
    observed: the queue never receives an id the store does not know. *)
Theorem enqueued_ids_are_stored (w : World) (sched : list nat) (x : Id) :
  let '(p, w', evs) := pass_run sched processAllFeeds w in
  In x (addFeed_ids evs) ->
  exists f, byId (store w') x = Some f /\ feed_id f = x.
Proof.
  pose proof (pass_run_known sched processAllFeeds w []
                (fun a c f (Hin : In (a, c) []) => match Hin with end))
    as Hknown.
  destruct (processAllFeeds_cases sched w)
    as [(_ & _ & Hq) | (res & i & j & sched' & _ & _ & _ & Hinv)].
  - destruct (pass_run sched processAllFeeds w) as [[p w'] evs].
    simpl in Hq. rewrite (no_addFeed_ids _ (quiet_no_addFeed _ Hq)).
    intros [].
  - destruct (pass_run sched processAllFeeds w) as [[p w'] evs].
    simpl in Hinv, Hknown. intros Hx.
    apply list_elem_of_In, list_elem_of_omap in Hx as ([a c] & Hin & Hc).
    apply list_elem_of_In in Hin. simpl in Hc.
    destruct c; try discriminate Hc. injection Hc as ->.
    destruct Hinv as [(Hcb & _ & Hmain) _].
    destruct a as [|k].
    { rewrite Forall_forall in Hmain.
      apply list_elem_of_In in Hin. specialize (Hmain _ Hin eq_refl).
      discriminate Hmain. }
    pose proof (calls_of_In _ _ _ Hin) as Hh.
    apply in_split in Hh as (pre & post & Hh).
    specialize (Hcb k). destruct (all_feeds w res !! k) as [feed|].
    + destruct Hcb as (t & _ & Hr).
      destruct (reached_addFeed_last _ _ _ _ _ _ _ Hr Hh)
        as (d & f & _ & Hres & -> & _).
      destruct (resolved_answered _ _ _ Hres) as (c & Hc & Hans).
      assert (Hev : In (Callback k, c) evs).
      { apply calls_of_from. rewrite Hh. apply in_or_app. now left. }
      specialize (Hknown _ _ _ Hev Hans).
      destruct (byId (store w') (feed_id f)) as [g|] eqn:E; [|contradiction].
      exists g. split; [reflexivity | exact (byId_id _ _ _ E)].
    + destruct Hcb as [_ Hcb]. rewrite Hcb in Hh.
      now apply app_cons_not_nil in Hh.
Qed.

Lemma enqueued_ids_are_stored_witness :
  exists f,
    byId (store (pass_run [0; 0; 1; 1; 1; 1] processAllFeeds
                          (mkWorld [feed_a] (ok [mkUser false [source_b]]))).1.2)
         2 = Some f
    /\ feed_id f = 2.
Proof.
  apply (enqueued_ids_are_stored
           (mkWorld [feed_a] (ok [mkUser false [source_b]]))
           [0; 0; 1; 1; 1; 1] 2).
  simpl. now left.
Defined.

Lemma pass_over_known_urls_reads_only_witness :
  (pass_run [0; 0; 1; 0; 1; 0] processAllFeeds rediscovered).1.2
  = rediscovered.
Proof.
  refine (proj1 (pass_over_known_urls_reads_only
                   rediscovered (mkResponse 200 [mkUser false [source_a]])
                   [0; 0; 1; 0; 1; 0] eq_refl _)).
  intros d [<-|[]]. vm_compute. discriminate.
Defined.

Lemma pass_settles_witness :
  returned (pass_run [0; 0; 0; 1; 0; 1; 0; 1; 0; 1] processAllFeeds
                     listed_twice).1.1 = true.
Proof.
  refine (proj1 (pass_settles
                   listed_twice
                   (mkResponse 200
                      [mkUser false [source_b;
                                     mkFeedData url_b "Robert"%string]])
                   [0; 1; 0; 1; 0; 1; 0; 1] eq_refl eq_refl _)).
  intros [|[|j]] Hj; simpl in *; lia.
Defined.

Lemma calls_only_for_persisted_or_unflagged_witness :
  exists d,
    all_feeds (mkWorld [] (Fulfilled with_flagged)) with_flagged !! 1
    = Some (Some d)
    /\ about d (CByUrl url_a (Fulfilled None))
    /\ (In d (map feedData_of []) \/ In d (discovered with_flagged)).
Proof.
  apply (calls_only_for_persisted_or_unflagged
           (mkWorld [] (Fulfilled with_flagged)) with_flagged [0; 0; 1]
           eq_refl eq_refl 1 (CByUrl url_a (Fulfilled None))).
  simpl. tauto.
Defined.

(** A persisted feed that only a flagged user lists is looked up and
    enqueued all the same. *)
Example persisted_feed_of_flagged_user :
  let '(p, w', evs) :=
    pass_run [0; 0; 0; 0] processAllFeeds
             (mkWorld [mkFeed 1 url_c "Carl"%string None true None]
                      (ok [mkUser true [source_c]])) in
  discovered (mkResponse 200 [mkUser true [source_c]]) = []
  /\ calls_of 0 evs
     = [CByUrl url_c
               (Fulfilled (Some (mkFeed 1 url_c "Carl"%string None true None)));
        CAddFeed 1 (Fulfilled tt)].
Proof. vm_compute. split; reflexivity. Qed.

Lemma failed_event_invalidates_amid_calls_witness :
  exists f',
    byId (store
            (run (step (onFailed 1) (mkWorld [feed_a] (ok []))).1.1
                 (disturb [some_op (FeedCreate source_b)]
                          (mkWorld [feed_a] (ok [])))).1.2) 1
    = Some f'
    /\ feed_isValid f' = false
    /\ feed_reason f' = Some unknown_reason.
Proof.
  exact (proj2 (proj2 (failed_event_invalidates_amid_calls
                         (mkWorld [feed_a] (ok [])) 1 feed_a
                         [some_op (FeedCreate source_b)] eq_refl))).
Defined.

(** ** A callback that nothing interleaves with *)

(** The calls of [let* x := p in k x] are those of [p], then those of
    [k x] in the world that [p] left; a rejection of [p] is the rejection
    of the whole, and [k] makes no call. *)
Lemma run_bind {A B} (p : Prog A) (k : A -> Prog B) w :
  run (bind p k) w =
  match run p w with
  | (Fulfilled x, w1, cs1) =>
      ((run (k x) w1).1.1, (run (k x) w1).1.2, cs1 ++ (run (k x) w1).2)
  | (Rejected e, w1, cs1) => (Rejected e, w1, cs1)
  end.
Proof.
  revert w. induction p as [x|e|C op k' IH]; intros w; simpl.
  - now destruct (run (k x) w) as [[r w2] cs2].
  - reflexivity.
  - destruct (perform op w) as [r w1]. rewrite IH.
    destruct (run (k' r) w1) as [[[x|e] w2] cs1]; reflexivity.
Qed.

(** X8. The callback of [processFeeds] for an element that is not [null],
    run without any other code in between, never fails, whatever the
    store holds: [updateFeed] returns a feed for the URL of the element,
    then [addFeed] is called once, with the id of that feed, which is the
    feed the store now answers for the URL. *)
Theorem processFeed_alone (w : World) (d : FeedData) :
  exists f w' h,
    run (updateFeed (Some d)) w = (Fulfilled (Some f), w', h)
    /\ run (processFeed (Some d)) w =
       (Fulfilled tt, w', h ++ [CAddFeed (feed_id f) (Fulfilled tt)])
    /\ byUrl (store w') (url d) = Some f
    /\ feed_url f = url d.
Proof.
  assert (Hupd : exists f w' h,
             run (updateFeed (Some d)) w = (Fulfilled (Some f), w', h)
             /\ byUrl (store w') (url d) = Some f).
  { destruct (byUrl (store w) (url d)) as [f|] eqn:E.
    - exists f, w, [CByUrl (url d) (Fulfilled (Some f))].
      split; [now apply updateFeed_known_url | exact E].
    - eexists _, _, _. split; [now apply updateFeed_first_sight|].
      exact (proj2 (created_record_found _ _ E)). }
  destruct Hupd as (f & w' & h & Hrun & Hurl).
  exists f, w', h. split; [exact Hrun|]. split; [|split; [exact Hurl|]].
  - unfold processFeed. rewrite run_bind, Hrun. reflexivity.
  - apply find_some in Hurl as [_ Hurl]. now apply String.eqb_eq in Hurl.
Qed.

(** ** The failure handler, again *)

Lemma invalidated_twice reason X (fs : list Feed) :
  map (fun g => if Nat.eqb (feed_id g) X then invalidated reason g else g)
      (map (fun g => if Nat.eqb (feed_id g) X then invalidated reason g
                     else g) fs)
  = map (fun g => if Nat.eqb (feed_id g) X then invalidated reason g else g)
        fs.
Proof.
  rewrite map_map. apply map_ext. intros g.
  destruct (Nat.eqb (feed_id g) X) eqn:E; simpl; now rewrite E.
Qed.

Lemma run_onFailed (w : World) (X : Id) :
  (run (onFailed X) w).1.1 = Fulfilled tt
  /\ store (run (onFailed X) w).1.2 =
     match byId (store w) X with
     | Some _ =>
         map (fun g => if Nat.eqb (feed_id g) X
                       then invalidated unknown_reason g else g) (store w)
     | None => store w
     end
  /\ directory (run (onFailed X) w).1.2 = directory w.
Proof.
  destruct (byId (store w) X) as [f|] eqn:H.
  - pose proof (byId_id _ _ _ H) as <-.
    destruct (setInvalid_current _ _ _ unknown_reason H) as [Hs _].
    simpl. rewrite H. simpl. rewrite Hs. simpl. now repeat split.
  - simpl. rewrite H. simpl. now repeat split.
Qed.

(** X9. A second 'failed' event for the same feed changes nothing: the
    handler run again, on the world the first run left, ends fulfilled
    and leaves that world as it is. *)
Theorem failed_twice_is_failed_once (w : World) (X : Id) :
  let w1 := (run (onFailed X) w).1.2 in
  (run (onFailed X) w1).1.1 = Fulfilled tt
  /\ (run (onFailed X) w1).1.2 = w1.
Proof.
  intros w1. destruct (run_onFailed w1 X) as (Hr & Hs & Hd).
  split; [exact Hr|].
  assert (Hstore : store (run (onFailed X) w1).1.2 = store w1).
  { destruct (run_onFailed w X) as (_ & Hs1 & _). fold w1 in Hs1.
    rewrite Hs, Hs1. destruct (byId (store w) X) as [f|] eqn:E.
    - match goal with
      | |- match ?b with Some _ => _ | None => _ end = _ => destruct b
      end; [apply invalidated_twice | reflexivity].
    - now rewrite E. }
  destruct (run (onFailed X) w1).1.2 as [fs dir], w1 as [fs1 dir1].
  simpl in *. congruence.
Qed.

(** X10. The handler of 'failed' for the id [X] touches the record of [X]
    and nothing else: every record keeps its place, its id, its URL, its
    author and its caching metadata, and a record under another id is
    left exactly as it was, validity and reason included; no record is
    added or removed. *)
Theorem failed_event_touches_one_feed (w : World) (X : Id) :
  let w' := (run (onFailed X) w).1.2 in
  map (fun g => (feed_id g, feed_url g, feed_author g, feed_etag g))
      (store w')
  = map (fun g => (feed_id g, feed_url g, feed_author g, feed_etag g))
        (store w)
  /\ (forall k g, store w !! k = Some g -> feed_id g <> X ->
                  store w' !! k = Some g)
  /\ directory w' = directory w.
Proof.
  intros w'. destruct (run_onFailed w X) as (_ & Hs & Hd). fold w' in Hs, Hd.
  split; [|split; [|exact Hd]].
  - rewrite Hs. destruct (byId (store w) X); [|reflexivity].
    rewrite map_map. apply map_ext. intros g.
    now destruct (Nat.eqb (feed_id g) X).
  - intros k g Hk Hne. rewrite Hs.
    destruct (byId (store w) X); [|exact Hk].
    rewrite list_lookup_fmap, Hk. simpl.
    destruct (Nat.eqb (feed_id g) X) eqn:E; [|reflexivity].
    apply Nat.eqb_eq in E. contradiction.
Qed.

Lemma failed_event_touches_one_feed_witness :
  (store (run (onFailed 2)
              (mkWorld [feed_a; mkFeed 2 url_b "Bob"%string None true None]
                       (ok []))).1.2) !! 0
  = Some feed_a.
Proof.
  apply (proj1 (proj2 (failed_event_touches_one_feed
                         (mkWorld [feed_a;
                                   mkFeed 2 url_b "Bob"%string None true None]
                                  (ok [])) 2))).
  - reflexivity.
  - simpl. lia.
Defined.

(** ** The module *)

Lemma exec_cons inp inps s : exec (inp :: inps) s = exec inps (react inp s).
Proof. reflexivity. Qed.

(** X11. Whatever the module receives, in whatever order, it has started
    exactly one call of [processAllFeeds] per trigger (the call of
    [startParserQueue] and each 'drained' event), and exactly one handler
    per 'failed' event: a trigger never starts none or several passes, a
    failure or a resumption starts none, and nothing is ever dropped. *)
Theorem one_pass_per_trigger (inps : list Input) (s : System) :
  length (passes (exec inps s))
  = length (passes s) + length (List.filter is_trigger inps)
  /\ length (handlers (exec inps s))
     = length (handlers s) + length (List.filter is_failed inps).
Proof.
  revert s. induction inps as [|inp inps IH]; intros s.
  - simpl. lia.
  - rewrite exec_cons. destruct (IH (react inp s)) as [Hp Hh].
    rewrite Hp, Hh. clear IH Hp Hh.
    destruct inp as [| |id|n i|n]; simpl.
    + rewrite length_app. simpl. lia.
    + rewrite length_app. simpl. lia.
    + rewrite length_app. simpl. lia.
    + destruct (passes s !! n) as [p|]; [|lia].
      destruct (pass_step i p (world s)) as [[p' w'] evs]. simpl.
      rewrite length_insert. lia.
    + destruct (handlers s !! n) as [h|]; [|lia].
      destruct (resume h (world s)) as [[h' w'] cs]. simpl.
      rewrite length_insert. lia.
Qed.

Lemma exec_resume_pass sched w p hs b j :
  exec (map (ResumePass 0) sched) (mkSystem w [p] hs b j) =
  mkSystem (pass_run sched p w).1.2 [(pass_run sched p w).1.1] hs b
           (j ++ map (fun ev => (OfPass 0 (fst ev), snd ev))
                     (pass_run sched p w).2).
Proof.
  revert w p j. induction sched as [|i sched IH]; intros w p j.
  - simpl. now rewrite app_nil_r.
  - cbn [map]. rewrite exec_cons.
    assert (Hr : react (ResumePass 0 i) (mkSystem w [p] hs b j) =
                 mkSystem (pass_step i p w).1.2 [(pass_step i p w).1.1] hs b
                   (j ++ map (fun ev => (OfPass 0 (fst ev), snd ev))
                             (pass_step i p w).2)).
    { simpl. now destruct (pass_step i p w) as [[p1 w1] evs1]. }
    rewrite Hr, IH. clear Hr IH.
    change (pass_run (i :: sched) p w) with
      (let '(p1, w1, evs1) := pass_step i p w in
       let '(p2, w2, evs2) := pass_run sched p1 w1 in
       (p2, w2, evs1 ++ evs2)).
    destruct (pass_step i p w) as [[p1 w1] evs1]. cbn [fst snd].
    destruct (pass_run sched p1 w1) as [[p2 w2] evs2]. cbn [fst snd].
    now rewrite map_app, app_assoc.
Qed.

(** X12. The module, loaded and started by [startParserQueue], then
    resumed along a schedule with no other event: there is one pass, the
    one that [pass_run] describes, over the same world, its calls in the
    journal after the line that [loadFeedsIntoQueue] logs, and the worker
    is started.  What holds of a pass under any schedule holds of the
    module as long as no second trigger arrives. *)
Theorem started_module_runs_one_pass (w : World) (sched : list nat) :
  let s := exec (StartParserQueue :: map (ResumePass 0) sched) (loaded w) in
  let '(p, w', evs) := pass_run sched processAllFeeds w in
  world s = w'
  /\ passes s = [p]
  /\ handlers s = []
  /\ workerStarted s = true
  /\ journal s =
     (OfModule,
      CLog Info None "Loading all feeds into feed queue for processing"%string
           (Fulfilled tt))
       :: map (fun ev => (OfPass 0 (fst ev), snd ev)) evs.
Proof.
  rewrite exec_cons.
  change (react StartParserQueue (loaded w))
    with (mkSystem w [processAllFeeds] [] true
            [(OfModule,
              CLog Info None
                   "Loading all feeds into feed queue for processing"%string
                   (Fulfilled tt))]).
  rewrite exec_resume_pass.
  destruct (pass_run sched processAllFeeds w) as [[p w'] evs].
  now repeat split.
Qed.

(** X18. A 'failed' handler in the module, with nothing in between: its
    second resumption settles it, fulfilled, [invalidateFeed] having two
    awaits and the logger being called without one; the world and the calls
    are those of the handler run alone. *)
Theorem failed_handler_settles (w : World) (X : Id) :
  let s := exec [Failed X; ResumeHandler 0; ResumeHandler 0] (loaded w) in
  handlers s = [Ret tt]
  /\ passes s = []
  /\ world s = (run (onFailed X) w).1.2
  /\ journal s = map (pair (OfHandler 0)) (run (onFailed X) w).2.
Proof.
  assert (H1 : resume (onFailed X) w =
               match byId (store w) X with
               | Some f => ((step (onFailed X) w).1.1, w,
                            [CById X (Fulfilled (Some f))])
               | None => (Ret tt, w, (run (onFailed X) w).2)
               end).
  { unfold resume. simpl. now destruct (byId (store w) X). }
  unfold exec, loaded. simpl. rewrite H1. clear H1.
  destruct (byId (store w) X) as [f|] eqn:H; simpl.
  - unfold resume. simpl. rewrite H. simpl.
    destruct (setInvalid (store w) f unknown_reason) as [[[]|e] fs];
      now repeat split.
  - unfold resume. simpl. rewrite H. simpl. now repeat split.
Qed.

(** ** A pass over feeds that are all known *)

Lemma userFeeds_unflagged res :
  existsb isFlagged (body res) = false ->
  userFeeds res = map Some (discovered res).
Proof.
  destruct res as [st users]. simpl.
  induction users as [|user users IH]; [reflexivity|].
  simpl. intros H. apply orb_false_iff in H as [Hf H].
  rewrite userFeeds_cons, discovered_cons, Hf. simpl.
  rewrite map_app. f_equal. exact (IH H).
Qed.

Lemma all_feeds_unflagged w res :
  existsb isFlagged (body res) = false ->
  all_feeds w res = map Some (persisted w ++ discovered res).
Proof.
  intros H. unfold all_feeds, persisted.
  now rewrite (userFeeds_unflagged _ H), map_app, map_map.
Qed.

(** A callback none of whose lookups by URL has missed is suspended before
    its second call, or fulfilled. *)
Lemma reached_found d t h :
  reached (Some d) t h ->
  Forall (fun c => is_miss c = false) h ->
  (settled t = false -> length h <= 1) /\ (settled t = true -> t = Ret tt).
Proof.
  intros H Hm. inversion H; subst.
  - split; [simpl; lia | discriminate].
  - inversion Hm; discriminate.
  - inversion Hm; discriminate.
  - match goal with Hr : resolved _ _ _ |- _ => destruct Hr as [-> | [id ->]] end.
    + split; [simpl; lia | discriminate].
    + inversion Hm; discriminate.
  - split; [discriminate | reflexivity].
  - inversion Hm; discriminate.
  - inversion Hm; discriminate.
Qed.

(** X13. The steady state: the directory answers 200, no user is flagged
    and every source it lists already has a record.  Once the fetch and
    [Feed.all()] have settled, any schedule that resumes each callback
    twice or more ends the pass in success: every callback is fulfilled,
    the world is as it was, and [addFeed] was called once for each
    persisted feed and once more for each listed source. *)
Theorem pass_over_known_urls_enqueues_all (w : World) (res : Response)
  (i j : nat) (sched : list nat) :
  directory w = Fulfilled res ->
  status res = 200 ->
  existsb isFlagged (body res) = false ->
  (forall d, In d (discovered res) -> byUrl (store w) (url d) <> None) ->
  (forall k, k < length (store w) + length (discovered res) ->
             2 <= count_occ Nat.eq_dec sched k) ->
  let '(p, w', evs) := pass_run (i :: j :: sched) processAllFeeds w in
  succeeded p = true
  /\ w' = w
  /\ length (addFeed_ids evs) = length (store w) + length (discovered res).
Proof.
  intros Hd Hs Hnf Hknown Hfair.
  pose proof (all_feeds_unflagged w res Hnf) as Hfeeds.
  assert (Hn : length (all_feeds w res)
               = length (store w) + length (discovered res)).
  { rewrite Hfeeds, length_map, length_app. unfold persisted.
    now rewrite length_map. }
  rewrite (pass_run_past_all _ _ _ _ _ Hd Hs).
  pose proof (pass_inv_join (all_feeds w res)
                [(Main, CFetch (Fulfilled res));
                 (Main, CAll (Fulfilled (store w)))]
                (fun _ => eq_refl) ltac:(repeat constructor)) as H0.
  assert (Hstart : reads_only w (all_feeds w res)
                     (join (processFeeds (all_feeds w res))).1 w
                     ([(Main, CFetch (Fulfilled res));
                       (Main, CAll (Fulfilled (store w)))]
                        ++ (join (processFeeds (all_feeds w res))).2)).
  { split; [exact H0|]. split; [reflexivity|]. intros k.
    rewrite calls_of_app, (proj1 (join_events _ k)). constructor. }
  pose proof (reads_only_run w (all_feeds w res)
                (all_feeds_known w res Hknown) sched _ _ _ Hstart)
    as (Hinv & Hw & Hmiss).
  pose proof (fun k => pass_run_progress sched k
                         (join (processFeeds (all_feeds w res))).1
                         ([(Main, CFetch (Fulfilled res));
                           (Main, CAll (Fulfilled (store w)))]
                            ++ (join (processFeeds (all_feeds w res))).2)
                         w (join_not_collecting _)) as Hprog.
  destruct (pass_run sched (join (processFeeds (all_feeds w res))).1 w)
    as [[p w'] evs].
  cbn [fst snd] in Hinv, Hw, Hmiss, Hprog |- *.
  destruct Hinv as [Hcbs Hset].
  pose proof (callbacks_inv_length _ _ _ Hcbs) as Hlen.
  assert (Hall : forallb fulfilled (callbacks p) = true).
  { apply forallb_forall. intros t Ht.
    apply list_elem_of_In, list_elem_of_lookup_1 in Ht as [k Hk].
    pose proof (lookup_lt_Some _ _ _ Hk) as Hlt. rewrite Hlen, Hn in Hlt.
    specialize (Hprog k). specialize (Hfair k Hlt). specialize (Hmiss k).
    unfold progress in Hprog at 2. rewrite Hk in Hprog.
    destruct Hcbs as (Hcb & _). specialize (Hcb k).
    destruct (all_feeds w res !! k) as [feed|] eqn:Hf.
    - destruct Hcb as (t0 & Ht0 & Hr). rewrite Hk in Ht0.
      injection Ht0 as <-.
      rewrite Hfeeds, list_lookup_fmap in Hf.
      destruct ((persisted w ++ discovered res) !! k) as [d|];
        [|discriminate]. injection Hf as <-.
      destruct (reached_found _ _ _ Hr Hmiss) as [Hshort Hdone].
      destruct (settled t) eqn:Hst; [now rewrite (Hdone eq_refl)|].
      exfalso. pose proof (Nat.le_trans _ _ _ Hprog (Hshort eq_refl)) as Hle.
      clear -Hle Hfair. lia.
    - destruct Hcb as [Hcb _]. congruence. }
  split; [|split; [exact Hw|]].
  - destruct p as [c|cbs|cbs]; [contradiction | | exact Hall].
    destruct Hset as [_ Hnot]. simpl in Hall. congruence.
  - destruct Hcbs as (_ & Hcount & _).
    etransitivity; [exact Hcount|].
    now rewrite (count_fulfilled_all _ Hall), Hlen.
Qed.

Lemma pass_over_known_urls_enqueues_all_witness :
  let '(p, w', evs) :=
    pass_run [0; 0; 0; 1; 1; 0] processAllFeeds rediscovered in
  succeeded p = true
  /\ w' = rediscovered
  /\ length (addFeed_ids evs) = 1 + 1.
Proof.
  apply (pass_over_known_urls_enqueues_all
           rediscovered (mkResponse 200 [mkUser false [source_a]])
           0 0 [0; 1; 1; 0]).
  - reflexivity.
  - reflexivity.
  - reflexivity.
  - intros d [<- | []]. discriminate.
  - intros k Hk. simpl in Hk.
    destruct k as [|[|k]]; [simpl; lia | simpl; lia | lia].
Defined.

(** ** A failure for an id without a record *)

(** X14. A 'failed' event whose id names no record: [Feed.byId] answers
    [null], [feed.setInvalid] throws, and the [.catch] of line 99 logs
    'Unable to invalidate feed' with that error.  Nothing is written, the
    line of [invalidateFeed] is not logged, and the handler's promise is
    fulfilled. *)
Theorem failed_event_for_unknown_id (w : World) (X : Id) :
  byId (store w) X = None ->
  run (onFailed X) w =
  (Fulfilled tt, w,
   [CById X (Fulfilled None);
    CLog Error (Some TypeError) "Unable to invalidate feed"%string
         (Fulfilled tt)]).
Proof.
  intros H. simpl. rewrite H. reflexivity.
Qed.

Lemma failed_event_for_unknown_id_witness :
  run (onFailed 7) (mkWorld [feed_a] (ok [])) =
  (Fulfilled tt, mkWorld [feed_a] (ok []),
   [CById 7 (Fulfilled None);
    CLog Error (Some TypeError) "Unable to invalidate feed"%string
         (Fulfilled tt)]).
Proof.
  apply (failed_event_for_unknown_id (mkWorld [feed_a] (ok [])) 7).
  reflexivity.
Defined.
